(** * Stone Soup: the Kalman (Rauch-Tung-Striebel) smoother and the
      forward-algorithm classification example

    A shallow embedding of

    - [stonesoup/smoother/kalman.py]: [KalmanSmoother] with its methods
      [_prediction], [_transition_model], [smooth] and [track_smooth], and
      the subclass [ExtendedKalmanSmoother];
    - [docs/examples/Naive_Classification.py]: the matrices [F] and [E],
      [transit], [observe], the tracking loop and the colours of the
      plot;
    - [stonesoup/models/transition/tests/test_orbital_transition.py]: the
      loop of [test_meanm_cart_ransition], for any two propagators.

    The smoother is written against NumPy's array operations, which are an
    interface here ([NumPy]), and against the [TransitionModel] interface,
    of which only the method [matrix] is used.  Python exceptions are the
    [Raise] outcome of a small monad, which also logs the calls that leave
    the method: [matrix], [np.linalg.inv] and [from_state].

    The forward-algorithm example computes with 64-bit floats.  A float is
    the rational number it stands for, and every operation of the script
    is the exact operation followed by a rounding, which is a parameter of
    the definitions; [Binary64.round64] is rounding to the nearest binary64
    number.

    The first part of the file holds the definitions, the second the
    lemmas and theorems. *)

From Stdlib Require Import ZArith QArith Qabs Qround Qpower Qcanon.
From Stdlib Require Import List Bool Lia Lqa.
From Stdlib Require String.
Import ListNotations.
Close Scope Q_scope.
Close Scope Qc_scope.

Set Implicit Arguments.

(** * Part I: definitions *)

(** ** Interfaces the smoother is written against *)

(** [datetime] and [timedelta]: a point in time and a signed interval, in
    microseconds.  [datetime - datetime] is a [timedelta]. *)
Definition datetime := Z.
Definition timedelta := Z.

(** The part of NumPy that [kalman.py] uses: [@], [.T], [+], [-] and
    [np.linalg.inv].  State vectors are [n x 1] arrays and covariances
    [n x n] arrays: both are [ndarray]s, and their shapes are taken to
    agree, so that only the inversion can fail.  [linalg_inv] is
    [np.linalg.inv]; [None] stands for its [LinAlgError]. *)
Class NumPy := {
  ndarray : Type;
  matmul : ndarray -> ndarray -> ndarray;
  transpose : ndarray -> ndarray;
  ndadd : ndarray -> ndarray -> ndarray;
  ndsub : ndarray -> ndarray -> ndarray;
  linalg_inv : ndarray -> option ndarray
}.

Declare Scope nd_scope.
Delimit Scope nd_scope with nd.
Infix "*m" := matmul (at level 40, left associativity) : nd_scope.
Infix "+m" := ndadd (at level 50, left associativity) : nd_scope.
Infix "-m" := ndsub (at level 50, left associativity) : nd_scope.
Notation "A ^T" := (transpose A) (at level 1, format "A ^T") : nd_scope.
Local Open Scope nd_scope.

(** [stonesoup.models.transition.base.TransitionModel]: the smoother calls
    nothing but [matrix(time_interval)]. *)
Class TransitionModel `{NumPy} (TM : Type) := {
  matrix : TM -> timedelta -> ndarray
}.

(** Python exceptions that [smooth] can end in. *)
Inductive Exception :=
| TypeError
| AttributeError
| LinAlgError
| UnboundLocalError.

Inductive Outcome (A : Type) :=
| Return (a : A)
| Raise (e : Exception).
Arguments Raise {A} e.

(** The two classes of [kalman.py]. *)
Inductive SmootherClass := KalmanSmoother | ExtendedKalmanSmoother.

Section Smoother.
Context `{NP : NumPy} {TM : Type} `{!TransitionModel TM}.

(** ** States *)

(** A [GaussianStatePrediction].  The attribute [transition_model] is
    optional on the object: [None] is [hasattr(p, "transition_model")]
    being false. *)
Record GaussianStatePrediction := mkPrediction {
  p_state_vector : ndarray;
  p_covar : ndarray;
  p_timestamp : datetime;
  p_transition_model : option TM
}.

(** A hypothesis refers to the prediction it was computed against. *)
Record SingleHypothesis := mkHypothesis {
  prediction : GaussianStatePrediction;
  measurement : ndarray
}.

Record GaussianStateUpdate := mkUpdate {
  u_state_vector : ndarray;
  u_covar : ndarray;
  u_timestamp : datetime;
  hypothesis : SingleHypothesis
}.

(** What a [Track] may hold.  [OtherState] is a state that is neither a
    [GaussianStatePrediction] nor a [GaussianStateUpdate] (a plain
    [State], say): an instance of neither [Prediction] nor [Update]. *)
Inductive State :=
| Pred (p : GaussianStatePrediction)
| Upd (u : GaussianStateUpdate)
| OtherState (sv : ndarray) (ts : datetime).

Definition Track := list State.

Definition state_vector (s : State) : ndarray :=
  match s with
  | Pred p => p_state_vector p
  | Upd u => u_state_vector u
  | OtherState sv _ => sv
  end.

Definition timestamp (s : State) : datetime :=
  match s with
  | Pred p => p_timestamp p
  | Upd u => u_timestamp u
  | OtherState _ ts => ts
  end.

(** [state.covar]: a state without the attribute raises. *)
Definition covar (s : State) : Outcome ndarray :=
  match s with
  | Pred p => Return (p_covar p)
  | Upd u => Return (u_covar u)
  | OtherState _ _ => Raise AttributeError
  end.

Definition isinstance_Update (s : State) : bool :=
  match s with Upd _ => true | _ => false end.

Definition isinstance_Prediction (s : State) : bool :=
  match s with Pred _ => true | _ => false end.

(** Modelled from the spec: [Update.from_state], which lives in
    [stonesoup/types] and is not among the sources.  The spec has it
    build an element of the same kind "with the new mean/covariance, same
    timestamp, same Hypothesis reference if Update". *)
Definition Update_from_state (state : State) (sv cov : ndarray)
    (ts : datetime) (hyp : SingleHypothesis) : State :=
  Upd (mkUpdate sv cov ts hyp).

(** Modelled from the spec: [Prediction.from_state], not among the
    sources either: "Prediction stays a Prediction", "with only the mean
    and covariance replaced", so what else the state carries is kept. *)
Definition Prediction_from_state (state : State) (sv cov : ndarray)
    (ts : datetime) : State :=
  Pred (mkPrediction sv cov ts
          (match state with Pred p => p_transition_model p | _ => None end)).

(** ** Effects *)

(** The calls that leave [smooth], in the order they are made. *)
Inductive Call :=
| CallMatrix (tm : TM) (time_interval : timedelta)
| CallInv (a : ndarray)
| CallFromState (state : State) (sv cov : ndarray).

(** A computation: the calls made so far and how it ended. *)
Definition Py (A : Type) : Type := (list Call * Outcome A)%type.

Definition ret {A} (a : A) : Py A := ([], Return a).
Definition throw {A} (e : Exception) : Py A := ([], Raise e).
Definition call (c : Call) : Py unit := ([c], Return tt).

Definition bind {A B} (m : Py A) (k : A -> Py B) : Py B :=
  match m with
  | (log, Return a) => let (log', r) := k a in (log ++ log', r)
  | (log, Raise e) => (log, Raise e)
  end.

Definition lift {A} (o : Outcome A) : Py A := ([], o).

Definition calls {A} (m : Py A) : list Call := fst m.
Definition outcome {A} (m : Py A) : Outcome A := snd m.

(** A local variable that is read before it is bound. *)
Definition local {A} (v : option A) : Py A :=
  match v with
  | Some a => ret a
  | None => throw UnboundLocalError
  end.

Notation "x <- m ;; k" := (bind m (fun x => k))
  (at level 61, m at next level, right associativity).

(** ** The smoother *)

(** An instance of [KalmanSmoother] or of its subclass.  The property
    [transition_model] has no default value; [None] here is the smoother
    built with [transition_model=None].  The subclass body redeclares the
    property with another annotation and defines no method. *)
Record Smoother := mkSmoother {
  class_of : SmootherClass;
  transition_model : option TM
}.

(** [KalmanSmoother._prediction] *)
Definition _prediction (self : Smoother) (state : State)
    : Py GaussianStatePrediction :=
  match state with
  | Pred p => ret p
  | Upd u => ret (prediction (hypothesis u))
  | OtherState _ _ => throw TypeError
  end.

(** [KalmanSmoother._transition_model]: the result may be Python's
    [None], when the smoother's own attribute is. *)
Definition _transition_model (self : Smoother) (state : State)
    : Py (option TM) :=
  p <- _prediction self state ;;
  match p_transition_model p with
  | Some _ =>
      p' <- _prediction self state ;;
      ret (p_transition_model p')
  | None => ret (transition_model self)
  end.

(** [m.matrix(time_interval)]; on [None] the attribute lookup fails. *)
Definition call_matrix (m : option TM) (time_interval : timedelta)
    : Py ndarray :=
  match m with
  | Some tm =>
      _ <- call (CallMatrix tm time_interval) ;;
      ret (matrix tm time_interval)
  | None => throw AttributeError
  end.

(** [np.linalg.inv(a)] *)
Definition np_linalg_inv (a : ndarray) : Py ndarray :=
  _ <- call (CallInv a) ;;
  match linalg_inv a with
  | Some a' => ret a'
  | None => throw LinAlgError
  end.

(** [Update.from_state(...)] and [Prediction.from_state(...)] as calls. *)
Definition call_Update_from_state (state : State) (sv cov : ndarray)
    (ts : datetime) (hyp : SingleHypothesis) : Py State :=
  _ <- call (CallFromState state sv cov) ;;
  ret (Update_from_state state sv cov ts hyp).

Definition call_Prediction_from_state (state : State) (sv cov : ndarray)
    (ts : datetime) : Py State :=
  _ <- call (CallFromState state sv cov) ;;
  ret (Prediction_from_state state sv cov ts).

(** [state.hypothesis] *)
Definition get_hypothesis (s : State) : Py SingleHypothesis :=
  match s with
  | Upd u => ret (hypothesis u)
  | _ => throw AttributeError
  end.

(** The local variables of [smooth] that the loop carries.  [prev_state]
    and [prediction] are unbound until the first iteration binds them. *)
Record Locals := mkLocals {
  firststate : bool;
  prev_state : option State;
  l_prediction : option GaussianStatePrediction;
  smoothed_track : Track
}.

(** The body of [for state in reversed(track)]. *)
Definition smooth_body (self : Smoother) (state : State) (l : Locals)
    : Py Locals :=
  l' <-
    (if firststate l then
       ret (mkLocals false (Some state) (l_prediction l)
              (smoothed_track l ++ [state]))
     else
       prev <- local (prev_state l) ;;
       let time_interval := (timestamp prev - timestamp state)%Z in
       tm <- _transition_model self state ;;
       transition_matrix <- call_matrix tm time_interval ;;
       state_covar <- lift (covar state) ;;
       pred <- local (l_prediction l) ;;
       inv <- np_linalg_inv (p_covar pred) ;;
       let ksmooth_gain := state_covar *m transition_matrix^T *m inv in
       prev_covar <- lift (covar prev) ;;
       let smooth_mean :=
         state_vector state
           +m ksmooth_gain *m (state_vector prev -m p_state_vector pred) in
       let smooth_covar :=
         state_covar
           +m ksmooth_gain *m (prev_covar -m p_covar pred) *m ksmooth_gain^T in
       prev' <-
         (if isinstance_Update state then
            hyp <- get_hypothesis state ;;
            call_Update_from_state state smooth_mean smooth_covar
              (timestamp state) hyp
          else if isinstance_Prediction state then
            call_Prediction_from_state state smooth_mean smooth_covar
              (timestamp state)
          else ret prev) ;;
       ret (mkLocals false (Some prev') (l_prediction l)
              (smoothed_track l ++ [prev']))) ;;
  pred <- _prediction self state ;;
  ret (mkLocals (firststate l') (prev_state l') (Some pred)
         (smoothed_track l')).

Fixpoint for_each (body : State -> Locals -> Py Locals)
    (states : list State) (l : Locals) : Py Locals :=
  match states with
  | [] => ret l
  | state :: rest => l' <- body state l ;; for_each body rest l'
  end.

(** [KalmanSmoother.smooth] *)
Definition smooth (self : Smoother) (track : Track) : Py Track :=
  l <- for_each (smooth_body self) (rev track)
         (mkLocals true None None []) ;;
  ret (rev (smoothed_track l)).

(** [KalmanSmoother.track_smooth(self, *args, **kwargs)]: the body is
    [pass]; [tt] is the [None] that a Python function without a [return]
    gives back. *)
Definition track_smooth {PyObject : Type} (self : Smoother)
    (args : list PyObject) (kwargs : list (String.string * PyObject)) : Py unit :=
  ret tt.

(** ** Describing a pass *)

(** The state [s] with its mean and covariance replaced: what the two
    [from_state] branches of the loop build. *)
Definition rebuilt (s : State) (sv cov : ndarray) : State :=
  match s with
  | Pred p =>
      Pred (mkPrediction sv cov (p_timestamp p) (p_transition_model p))
  | Upd u => Upd (mkUpdate sv cov (u_timestamp u) (hypothesis u))
  | OtherState _ _ => s
  end.

(** A later iteration that ends normally: on the state [s], with
    [prev] the smoothed later state and [pred] the prediction of the
    original later state, it appends [new] and makes the calls [log]. *)
Definition iteration (self : Smoother) (prev : State)
    (pred : GaussianStatePrediction) (s new : State) (log : list Call)
    : Prop :=
  exists tm Sinv Sk Sprev,
    _transition_model self s = ret (Some tm) /\
    linalg_inv (p_covar pred) = Some Sinv /\
    covar s = Return Sk /\
    covar prev = Return Sprev /\
    let T := matrix tm (timestamp prev - timestamp s)%Z in
    let G := Sk *m T^T *m Sinv in
    let mean := state_vector s +m G *m (state_vector prev -m p_state_vector pred) in
    let cov := Sk +m G *m (Sprev -m p_covar pred) *m G^T in
    new = rebuilt s mean cov /\
    log = [CallMatrix tm (timestamp prev - timestamp s)%Z;
           CallInv (p_covar pred);
           CallFromState s mean cov].

(** The iterations after the first, over the states [rest] (latest
    first): [news] are the states appended and [log] the calls made. *)
Inductive backward (self : Smoother)
  : State -> GaussianStatePrediction -> list State -> list State ->
    list Call -> Prop :=
| backward_nil prev pred : backward self prev pred [] [] []
| backward_cons prev pred s new p rest news log1 log2 :
    iteration self prev pred s new log1 ->
    _prediction self s = ret p ->
    backward self new p rest news log2 ->
    backward self prev pred (s :: rest) (new :: news) (log1 ++ log2).

(** What the loop carries to its next iteration after [rest]: the last
    state appended and the prediction of the last state visited. *)
Inductive carried (self : Smoother)
  : State -> GaussianStatePrediction -> list State -> list State ->
    State -> GaussianStatePrediction -> Prop :=
| carried_nil prev pred : carried self prev pred [] [] prev pred
| carried_cons prev pred s new p rest news prev' pred' :
    _prediction self s = ret p ->
    carried self new p rest news prev' pred' ->
    carried self prev pred (s :: rest) (new :: news) prev' pred'.

Definition gaussian (s : State) : Prop :=
  match s with OtherState _ _ => False | _ => True end.

(** ** The calls of a pass *)

(** The arrays handed to [np.linalg.inv], in call order. *)
Definition inversions (log : list Call) : list ndarray :=
  flat_map (fun c => match c with CallInv a => [a] | _ => [] end) log.

(** The models whose [matrix] was called, in call order. *)
Definition matrix_models (log : list Call) : list TM :=
  flat_map (fun c => match c with CallMatrix tm _ => [tm] | _ => [] end) log.

(** The states handed to [from_state], and the states it built. *)
Definition from_state_sources (log : list Call) : list State :=
  flat_map (fun c => match c with CallFromState s _ _ => [s] | _ => [] end) log.

Definition from_state_results (log : list Call) : list State :=
  flat_map (fun c => match c with
                     | CallFromState s sv cov => [rebuilt s sv cov]
                     | _ => []
                     end) log.

(** ** Tracks that can be smoothed *)

Definition resolvable (self : Smoother) (s : State) : Prop :=
  exists tm, _transition_model self s = ret (Some tm).

Definition invertible_prediction (self : Smoother) (s : State) : Prop :=
  exists p a, _prediction self s = ret p /\ linalg_inv (p_covar p) = Some a.

(** Every element is a Gaussian prediction or update; every element but
    the latest has a transition model, its own or the smoother's; the
    covariance of the prediction of every element but the earliest can
    be inverted. *)
Definition smoothable (self : Smoother) (track : Track) : Prop :=
  forall pre s post, track = pre ++ s :: post ->
    gaussian s /\
    (post <> [] -> resolvable self s) /\
    (pre <> [] -> invertible_prediction self s).

(** The element [o] is the element [s] but for its mean and covariance. *)
Definition same_but_estimate (s o : State) : Prop :=
  match s, o with
  | Pred p, Pred q =>
      p_timestamp q = p_timestamp p /\
      p_transition_model q = p_transition_model p
  | Upd u, Upd v =>
      u_timestamp v = u_timestamp u /\ hypothesis v = hypothesis u
  | _, _ => False
  end.

(** ** The claims that the code does not meet, as the spec words them *)

(** The spec on the model of a step: "prefer the model attached to
    [P_{k+1}]", the prediction of the later state; "fall back to the
    Smoother's configured default". *)
Definition later_model_is_used (self : Smoother) (track : Track) : Prop :=
  forall log out,
    smooth self track = (log, Return out) ->
    Forall2 (fun Sk1 tm => _transition_model self Sk1 = ret (Some tm))
      (tl track) (rev (matrix_models log)).

(** The spec on a track with a state for which no model is found: it
    "fails with a configuration error before any computation begins". *)
Definition fails_before_the_pass (self : Smoother) (track : Track) : Prop :=
  (exists s, In s track /\ _transition_model self s = ret None) ->
  exists e, smooth self track = ([], Raise e).

End Smoother.

Arguments GaussianStatePrediction {NP} TM.
Arguments SingleHypothesis {NP} TM.
Arguments GaussianStateUpdate {NP} TM.
Arguments State {NP} TM.
Arguments Track {NP} TM.
Arguments Call {NP} TM.
Arguments Py {NP} TM A.
Arguments OtherState {NP TM} sv ts.
Arguments CallInv {NP TM} a.
Arguments ret {NP TM A} a.
Arguments throw {NP TM A} e.
Arguments lift {NP TM A} o.
Arguments local {NP TM A} v.

Notation "x <- m ;; k" := (bind m (fun x => k))
  (at level 61, m at next level, right associativity).

Arguments mkSmoother {TM} class_of transition_model.
Arguments mkLocals {NP TM} firststate prev_state l_prediction smoothed_track.
Arguments Smoother TM : clear implicits.
Arguments Locals {NP} TM.

(** ** The two smoother classes *)

(** [KalmanSmoother] declares [transition_model] a
    [LinearGaussianTransitionModel], [ExtendedKalmanSmoother] a
    [TransitionModel]: the first type, [TM1], is a subclass of the second,
    [TM2].  [upcast] views a model of the subclass as one of the
    superclass; the method [matrix] of an object does not depend on the
    view. *)
Section Upcast.
Context `{NP : NumPy} {TM1 TM2 : Type}.
Context `{T1 : !TransitionModel TM1} `{T2 : !TransitionModel TM2}.
Variable upcast : TM1 -> TM2.

Definition up_prediction (p : GaussianStatePrediction TM1)
    : GaussianStatePrediction TM2 :=
  mkPrediction (p_state_vector p) (p_covar p) (p_timestamp p)
    (option_map upcast (p_transition_model p)).

Definition up_hypothesis (h : SingleHypothesis TM1) : SingleHypothesis TM2 :=
  mkHypothesis (up_prediction (prediction h)) (measurement h).

Definition up_update (u : GaussianStateUpdate TM1) : GaussianStateUpdate TM2 :=
  mkUpdate (u_state_vector u) (u_covar u) (u_timestamp u)
    (up_hypothesis (hypothesis u)).

Definition up_state (s : State TM1) : State TM2 :=
  match s with
  | Pred p => Pred (up_prediction p)
  | Upd u => Upd (up_update u)
  | OtherState sv ts => OtherState sv ts
  end.

Definition up_call (c : Call TM1) : Call TM2 :=
  match c with
  | CallMatrix tm dt => CallMatrix (upcast tm) dt
  | CallInv a => CallInv a
  | CallFromState s sv cov => CallFromState (up_state s) sv cov
  end.

Definition up_py {A B} (g : A -> B) (m : Py TM1 A) : Py TM2 B :=
  (map up_call (fst m),
   match snd m with Return a => Return (g a) | Raise e => Raise e end).

Definition up_locals (l : Locals TM1) : Locals TM2 :=
  mkLocals (firststate l) (option_map up_state (prev_state l))
    (option_map up_prediction (l_prediction l))
    (map up_state (smoothed_track l)).

Definition as_extended (self : Smoother TM1) : Smoother TM2 :=
  mkSmoother ExtendedKalmanSmoother (option_map upcast (transition_model self)).

End Upcast.

(** ** The model that a state carries *)

Section SmootherMore.
Context `{NP : NumPy} {TM : Type} `{!TransitionModel TM}.

(** The attribute [transition_model] of the prediction associated with a
    state, when the state has one. *)
Definition attached_model (s : State TM) : option TM :=
  match s with
  | Pred p => p_transition_model p
  | Upd u => p_transition_model (prediction (hypothesis u))
  | OtherState _ _ => None
  end.

(** The state [s] with another attribute [transition_model], or none, on
    its associated prediction. *)
Definition with_model (m : option TM) (s : State TM) : State TM :=
  match s with
  | Pred p =>
      Pred (mkPrediction (p_state_vector p) (p_covar p) (p_timestamp p) m)
  | Upd u =>
      let p := prediction (hypothesis u) in
      Upd (mkUpdate (u_state_vector u) (u_covar u) (u_timestamp u)
             (mkHypothesis
                (mkPrediction (p_state_vector p) (p_covar p) (p_timestamp p) m)
                (measurement (hypothesis u))))
  | OtherState _ _ => s
  end.

End SmootherMore.

(** ** A one-dimensional instance: [1 x 1] arrays over the rationals *)

Module Scalar.

(** [np.linalg.inv] raises on a singular matrix: for a [1 x 1] array,
    on [[0]]. *)
#[export] Instance numpy : NumPy := {|
  ndarray := Q;
  matmul := fun a b => Qred (a * b)%Q;
  transpose := fun a => a;
  ndadd := fun a b => Qred (a + b)%Q;
  ndsub := fun a b => Qred (a - b)%Q;
  linalg_inv := fun a => if Qeq_bool a 0 then None else Some (Qred (/ a))%Q
|}.

(** A linear model with [matrix(dt) = [[1 + rate * dt]]]. *)
Record LinearModel := { rate : Q }.

#[export] Instance linear : TransitionModel LinearModel := {|
  matrix := fun m dt => Qred (1 + rate m * inject_Z dt)%Q
|}.

(** Any transition model: a linear one, or one that linearises to a
    Jacobian. *)
Inductive AnyModel :=
| FromLinear (m : LinearModel)
| Jacobian (j : Q).

#[export] Instance any_model : TransitionModel AnyModel := {|
  matrix := fun m dt =>
    match m with
    | FromLinear m' => matrix m' dt
    | Jacobian j => j
    end
|}.

Definition still : LinearModel := {| rate := 0 |}.
Definition drift : LinearModel := {| rate := 1 |}.

(** A smoother built with [transition_model=None]. *)
Definition ks : Smoother LinearModel := mkSmoother KalmanSmoother None.

(** A prediction at time 0 and an update at time 1. *)
Definition S0 : State LinearModel :=
  Pred (mkPrediction (0 : Q) (1 : Q) 0%Z (Some still)).

Definition S1 : State LinearModel :=
  Upd (mkUpdate (2 : Q) (1 : Q) 1%Z
         (mkHypothesis (mkPrediction (1 : Q) (2 : Q) 1%Z (Some drift))
            (3 : Q))).

(** [S0] smoothed against [S1]: [T = 1], [G = 1 * 1 / 2],
    mean [0 + 1/2 (2 - 1)], covariance [1 + 1/2 (1 - 2) 1/2]. *)
Definition S0_smoothed : State LinearModel :=
  Pred (mkPrediction (1 # 2)%Q (3 # 4)%Q 0%Z (Some still)).

(** Predictions that carry no model, at times 1 and -1. *)
Definition L1 : State LinearModel :=
  Pred (mkPrediction (2 : Q) (1 : Q) 1%Z None).

Definition N0 : State LinearModel :=
  Pred (mkPrediction (0 : Q) (1 : Q) (-1)%Z None).

(** A prediction at time 1 with the covariance [[c]]. *)
Definition with_covar (c : Q) : State LinearModel :=
  Pred (mkPrediction (2 : Q) c 1%Z None).

(** The spec on the inversion: it "must raise a numerical error (not
    silently return NaN) if the matrix is singular beyond a configured
    tolerance".  For [[c]] and the tolerance [tol]: *)
Definition singular_beyond (tol c : Q) : Prop := (Qabs c <= tol)%Q.

Definition raises_beyond (tol : Q) : Prop :=
  forall c, singular_beyond tol c ->
    exists log, smooth ks [S0; with_covar c] = (log, Raise LinAlgError).

End Scalar.

(** ** A one-dimensional instance with exact arithmetic *)

Module Exact.

(** [1 x 1] arrays over the rationals in lowest terms, for which the laws
    of arithmetic hold as equalities. *)
#[export] Instance numpy : NumPy := {|
  ndarray := Qc;
  matmul := Qcmult;
  transpose := fun a => a;
  ndadd := Qcplus;
  ndsub := Qcminus;
  linalg_inv := fun a => if Qc_eq_dec a 0 then None else Some (/ a)%Qc
|}.

(** A model of a random walk: [matrix(dt) = [[1]]]. *)
Inductive RandomWalk := random_walk.

#[export] Instance walk : TransitionModel RandomWalk := {|
  matrix := fun _ _ => 1%Qc
|}.

(** Two predictions, at times 0 and 1. *)
Definition W0 : State RandomWalk :=
  Pred (mkPrediction 0%Qc 1%Qc 0%Z (Some random_walk)).

Definition W1 : State RandomWalk :=
  Pred (mkPrediction (Q2Qc 2) (Q2Qc 3) 1%Z (Some random_walk)).

End Exact.

(** ** Binary64 arithmetic *)

(** Python's floats are IEEE 754 binary64 numbers.  The finite ones are
    rational numbers, and an operation gives the exact result rounded to
    the nearest of them, to the one with an even significand when two are
    nearest.  Beyond the largest float the rounding would give an infinity,
    which is not a rational: there [round64] rounds as if the exponent had
    no upper bound. *)
Module Binary64.

(** The greatest [e] with [2 ^ e <= x], for a positive [x]. *)
Definition floor_log2 (x : Q) : Z :=
  let k := (Z.log2 (Qnum x) - Z.log2 (Zpos (Qden x)))%Z in
  if Qle_bool (2 ^ k) x then k else (k - 1)%Z.

(** The integer nearest to [m]; of two nearest, the even one. *)
Definition nearest_even (m : Q) : Z :=
  let f := Qfloor m in
  match (m - inject_Z f ?= 1 # 2)%Q with
  | Lt => f
  | Gt => (f + 1)%Z
  | Eq => if Z.even f then f else (f + 1)%Z
  end.

(** The unit in the last place of the floats near a positive [x]: 53
    significant bits, and the exponent of the subnormal numbers below
    [2 ^ -1022]. *)
Definition ulp (x : Q) : Q := (2 ^ (Z.max (floor_log2 x) (-1022) - 52))%Q.

Definition round_pos (x : Q) : Q :=
  (inject_Z (nearest_even (x / ulp x)) * ulp x)%Q.

(** Rounding to the nearest binary64 number, ties to even. *)
Definition round64 (x : Q) : Q :=
  Qred match Qnum x with
       | Z0 => 0
       | Zpos _ => round_pos x
       | Zneg _ => - round_pos (- x)
       end%Q.

(** The unit roundoff. *)
Definition u : Q := 1 # 9007199254740992.

End Binary64.

(** ** The forward-algorithm example *)

(** [docs/examples/Naive_Classification.py].  A state vector is the list of
    its components; the draws of [scipy.stats.multinomial] are an argument
    of [observations]. *)
Module Classification.

Definition StateVector := list Q.

Definition nsteps : nat := 100.

(** [gt]: the target is a bus throughout. *)
Definition gt : list StateVector := repeat [0; 0; 1]%Q nsteps.

Definition F : list (list Q) :=
  [[0.8; 0.1; 0.1]; [0.1; 0.8; 0.1]; [0; 0.1; 0.9]]%Q.

Definition E : list (list Q) :=
  [[0.89; 0.1; 0.01]; [0.3; 0.3; 0.4]; [0.1; 0.3; 0.6]]%Q.

(** [np.argmax]: the index of the first greatest component. *)
Fixpoint argmax_from (i best : nat) (m : Q) (v : list Q) : nat :=
  match v with
  | [] => best
  | x :: v' =>
      if Qlt_le_dec m x then argmax_from (S i) i x v'
      else argmax_from (S i) best m v'
  end.

Definition np_argmax (v : list Q) : nat :=
  match v with
  | [] => 0
  | x :: v' => argmax_from 1 0 x v'
  end.

(** What one trial of the multinomial distribution gives: the observed
    size. *)
Inductive Size := Small | Medium | Large.

(** [_sample(row)]: one trial with the probabilities of [row]; the vector
    has a one at the drawn size.  The draw is the argument [drawn]. *)
Definition _sample (row : list Q) (drawn : Size) : list Q :=
  match drawn with
  | Small => [1; 0; 0]%Q
  | Medium => [0; 1; 0]%Q
  | Large => [0; 0; 1]%Q
  end.

Definition observe (state : StateVector) (drawn : Size) : StateVector :=
  let x := state in
  let row_num := np_argmax x in
  let row := nth row_num E [] in
  _sample row drawn.

(** [observations], given the draws of the hundred trials. *)
Definition observations (draws : nat -> Size) : list StateVector :=
  map (fun i => observe (nth i gt []) (draws i)) (seq 0 nsteps).

(** *** Floating-point arithmetic

    The script computes with binary64 floats.  A float is the rational
    number it stands for; every operation gives the exact result rounded
    by [rnd], which is [Binary64.round64] for the script.  Infinities and
    NaN are not rationals: where a division by zero would put them into a
    state, the result is [None], as it is where the script raises. *)
Section Floats.

Variable rnd : Q -> Q.

Definition fadd (x y : Q) : Q := rnd (x + y).
Definition fmul (x y : Q) : Q := rnd (x * y).
Definition fdiv (x y : Q) : Q := rnd (x / y).

(** A decimal literal of the script: the float nearest to it. *)
Definition literal (x : Q) : Q := rnd x.

(** [F] and [E] as the arrays of floats that [np.array] builds. *)
Definition F64 : list (list Q) := map (map literal) F.
Definition E64 : list (list Q) := map (map literal) E.

(** The sum of a sequence of fewer than eight floats, as NumPy's loops
    accumulate it: from left to right, one rounding for each addition and
    for each product. *)
Definition accumulate (v : list Q) : Q :=
  match v with
  | [] => 0%Q
  | x :: v' => fold_left fadd v' x
  end.

(** [np.sum] *)
Definition np_sum (v : list Q) : Q := accumulate v.

Fixpoint products (a b : list Q) : list Q :=
  match a, b with
  | x :: a', y :: b' => fmul x y :: products a' b'
  | _, _ => []
  end.

(** [np.multiply]: the elementwise product of two vectors of the same
    length, or of a vector and a vector of length 1; [None] is the
    [ValueError] for shapes that cannot be broadcast together. *)
Definition np_multiply (a b : list Q) : option (list Q) :=
  if length a =? length b then Some (products a b)
  else if length b =? 1 then Some (map (fun x => fmul x (hd 0%Q b)) a)
  else if length a =? 1 then Some (map (fun y => fmul (hd 0%Q a) y) b)
  else None.

(** [M @ v] for a matrix and a vector; [None] is the [ValueError] for
    shapes that do not match. *)
Definition matvec (M : list (list Q)) (v : list Q) : option (list Q) :=
  if forallb (fun row => length row =? length v) M
  then Some (map (fun row => accumulate (products row v)) M)
  else None.

(** [M.T] *)
Definition np_T (M : list (list Q)) : list (list Q) :=
  map (fun j => map (fun row => nth j row 0%Q) M)
    (seq 0 (length (hd [] M))).

Definition transit (state : StateVector) : option StateVector :=
  matvec (np_T F64) state.

Definition prior : StateVector := [fdiv 1 3; fdiv 1 3; fdiv 1 3].

Definition prenormalise (prior observation : StateVector)
    : option (list Q) :=
  match transit prior with
  | None => None
  | Some TX =>
      match matvec E64 observation with
      | None => None
      | Some EY => np_multiply TX EY
      end
  end.

(** One iteration of the tracking loop: the state appended.  Dividing by
    a sum that is zero gives infinities or NaN, and a warning. *)
Definition normalise (prior observation : StateVector)
    : option StateVector :=
  match prenormalise prior observation with
  | None => None
  | Some p =>
      if Qeq_bool (np_sum p) 0 then None
      else Some (map (fun x => fdiv x (np_sum p)) p)
  end.

(** [for observation in observations: ...], from [prior] and [track];
    [None] when an iteration raises or leaves the finite floats. *)
Fixpoint tracking_loop (observations : list StateVector)
    (prior : StateVector) (track : list StateVector)
    : option (list StateVector) :=
  match observations with
  | [] => Some track
  | observation :: rest =>
      match normalise prior observation with
      | None => None
      | Some state => tracking_loop rest state (track ++ [state])
      end
  end.

Definition track (draws : nat -> Size) : option (list StateVector) :=
  tracking_loop (observations draws) prior [].

(** The spec on a state: its components are "non-negative and sum to 1",
    with the sum that [np.sum] computes. *)
Definition categorical (v : StateVector) : Prop :=
  Forall (fun x => 0 <= x)%Q v /\ (np_sum v == 1)%Q.

Definition all_categorical : Prop :=
  forall draws states,
    track draws = Some states -> Forall categorical states.

End Floats.

(** The sum of the numbers that the components stand for. *)
Definition total (v : list Q) : Q := fold_right Qplus 0%Q v.

(** [rnd] rounds as binary64 arithmetic does on zero and between
    [2 ^ -40] and 2, where every float is a normal number: with a relative
    error of at most [u = 2 ^ -53]. *)
Definition rounds (rnd : Q -> Q) : Prop :=
  forall x : Q,
    (x == 0 \/ (1 # 1099511627776) <= x <= 2)%Q ->
    ((1 - Binary64.u) * x <= rnd x <= (1 + Binary64.u) * x)%Q.

(** Non-negative components whose sum is 1 up to four roundings. *)
Definition nearly_categorical (v : StateVector) : Prop :=
  Forall (fun x => 0 <= x)%Q v /\
  (1 - 4 * Binary64.u <= total v <= 1 + 4 * Binary64.u)%Q.

Definition one_hot (o : StateVector) : Prop :=
  o = [1; 0; 0]%Q \/ o = [0; 1; 0]%Q \/ o = [0; 0; 1]%Q.

(** The states that stay away from certainty: a bicycle keeps a
    probability of at least [2 ^ -15], a car of at least [1/40], a bus of
    at least [1/100]. *)
Definition undecided (v : StateVector) : Prop :=
  exists a b c, v = [a; b; c] /\
    ((1 # 32768) <= a < 1)%Q /\ ((1 # 40) <= b < 1)%Q /\
    ((1 # 100) <= c < 1)%Q.

(** What every iteration keeps: the bounds of [undecided] and a total
    that is 1 up to four roundings. *)
Definition invariant (v : StateVector) : Prop :=
  exists a b c, v = [a; b; c] /\
    ((1 # 32768) <= a)%Q /\ ((1 # 40) <= b)%Q /\ ((1 # 100) <= c)%Q /\
    (1 - 4 * Binary64.u <= a + b + c <= 1 + 4 * Binary64.u)%Q.

End Classification.

(** ** The forward-algorithm example: the colours of the plot *)

Module ClassificationPlot.
Import Classification.
Import String.
Local Open Scope string_scope.

(** The truth value of a number: false for zero. *)
Definition truth (x : Q) : bool := negb (Qeq_bool x 0).

(** [sv[i]]; [None] is an [IndexError]. *)
Definition item (sv : StateVector) (i : nat) : option Q := nth_error sv i.

(** The colour chosen for one observation in
    [for s in observations: ...]; [sv[1]] is read only when [sv[0]] is
    false. *)
Definition colour (sv : StateVector) : option string :=
  match item sv 0 with
  | None => None
  | Some x0 =>
      if truth x0 then Some "lightblue"
      else
        match item sv 1 with
        | None => None
        | Some x1 =>
            if truth x1 then Some "blue"
            else Some "darkblue"
        end
  end.

(** [d_colours] after the loop; [None] when an index is out of range. *)
Fixpoint d_colours (observations : list StateVector)
    : option (list string) :=
  match observations with
  | [] => Some []
  | s :: rest =>
      match colour s with
      | None => None
      | Some c =>
          match d_colours rest with
          | None => None
          | Some cs => Some (c :: cs)
          end
      end
  end.

(** The colour that the plot's description gives a size. *)
Definition colour_of_size (z : Size) : string :=
  match z with
  | Small => "lightblue"
  | Medium => "blue"
  | Large => "darkblue"
  end.

End ClassificationPlot.

(** ** The test of the two orbital propagators against each other *)

Module OrbitalTransitionTest.

(** Python's proleptic Gregorian calendar. *)
Definition is_leap (year : Z) : bool :=
  ((year mod 4 =? 0) && (negb (year mod 100 =? 0) || (year mod 400 =? 0)))%Z.

Definition days_before_year (year : Z) : Z :=
  (let y := year - 1 in y * 365 + y / 4 - y / 100 + y / 400)%Z.

Definition days_before_month (year month : Z) : Z :=
  (nth (Z.to_nat month)
     [0; 0; 31; 59; 90; 120; 151; 181; 212; 243; 273; 304; 334] 0
   + (if (2 <? month) && is_leap year then 1 else 0))%Z.

Definition ymd2ord (year month day : Z) : Z :=
  (days_before_year year + days_before_month year month + day)%Z.

(** [datetime(year, month, day, hour, minute, second)], in microseconds
    from the start of day 0 of the calendar. *)
Definition datetime_of (year month day hour minute second : Z) : datetime :=
  ((ymd2ord year month day * 86400 + hour * 3600 + minute * 60 + second)
   * 1000000)%Z.

(** [timedelta(hours=..., minutes=...)] *)
Definition timedelta_of (hours minutes : Z) : timedelta :=
  ((hours * 3600 + minutes * 60) * 1000000)%Z.

Definition time1 : datetime := datetime_of 2011 11 12 13 45 31.
Definition time2 : datetime := datetime_of 2011 11 12 14 45 31.
Definition deltat : timedelta := (time2 - time1)%Z.

(** What a test does: it passes, or an [assert] fails. *)
Inductive Verdict := Passed | AssertionError.

Section Propagators.

(** [OrbitalState], its [cartesian_state_vector], the [transition] of the
    two propagators and [np.allclose(., ., rtol=1e-8)] are not in this
    file of the repository: the test is modelled for any of them. *)
Variable OrbitalState : Type.
Variable vector : Type.
Variable cartesian_state_vector : OrbitalState -> vector.
Variable allclose : vector -> vector -> bool.
Variable propagator_c_transition : OrbitalState -> timedelta -> OrbitalState.
Variable propagator_sm_transition : OrbitalState -> timedelta -> OrbitalState.

(** [while time < datetime(2011, 11, 12, 13, 45, 31) + timedelta(hours=10)];
    [None] when the fuel runs out. *)
Fixpoint while_loop (fuel : nat) (dt : timedelta) (time : datetime)
    (state1 state2 : OrbitalState) : option Verdict :=
  match fuel with
  | O => None
  | S fuel' =>
      if (time <? datetime_of 2011 11 12 13 45 31 + timedelta_of 10 0)%Z then
        let state1 := propagator_c_transition state1 dt in
        let state2 := propagator_sm_transition state2 dt in
        if allclose (cartesian_state_vector state1)
                    (cartesian_state_vector state2)
        then while_loop fuel' dt (time + dt)%Z state1 state2
        else Some AssertionError
      else Some Passed
  end.

(** [test_meanm_cart_ransition], from the state built at its start;
    [deepcopy] gives a state equal to the one copied. *)
Definition test_meanm_cart_ransition (fuel : nat)
    (initial_state : OrbitalState) : option Verdict :=
  let time := time1 in
  let dt := timedelta_of 0 3 in
  let state1 := initial_state in
  let state2 := state1 in
  if allclose (cartesian_state_vector state1) (cartesian_state_vector state2)
  then while_loop fuel dt time state1 state2
  else Some AssertionError.

(** The two propagated states are close after [k] steps of [dt]. *)
Definition close_after (dt : timedelta) (state1 state2 : OrbitalState)
    (k : nat) : bool :=
  allclose
    (cartesian_state_vector
       (Nat.iter k (fun s => propagator_c_transition s dt) state1))
    (cartesian_state_vector
       (Nat.iter k (fun s => propagator_sm_transition s dt) state2)).

End Propagators.

End OrbitalTransitionTest.

(** * Part II: lemmas and theorems *)

(** ** Lists *)

Lemma Forall2_rev {A B} (R : A -> B -> Prop) l l' :
  Forall2 R l l' -> Forall2 R (rev l) (rev l').
Proof.
  induction 1; cbn; [constructor|].
  apply Forall2_app; [assumption|]. now repeat constructor.
Qed.

Lemma rev_cons_inv {A} (l : list A) a r :
  rev l = a :: r -> l = rev r ++ [a].
Proof.
  intros H. apply (f_equal (@rev A)) in H.
  now rewrite rev_involutive in H.
Qed.

Lemma last_default {A} (l : list A) : forall a d d',
  last (a :: l) d = last (a :: l) d'.
Proof.
  induction l as [|b l IH]; intros a d d'; [reflexivity|].
  change (last (a :: b :: l) d) with (last (b :: l) d).
  change (last (a :: b :: l) d') with (last (b :: l) d').
  apply IH.
Qed.

Lemma last_hd_rev {A} (r : list A) : forall a d,
  last (a :: r) d = hd d (rev (a :: r)).
Proof.
  induction r as [|b r IH]; intros a d; [reflexivity|].
  change (last (a :: b :: r) d) with (last (b :: r) d).
  rewrite IH. change (rev (a :: b :: r)) with (rev (b :: r) ++ [a]).
  destruct (rev (b :: r)) as [|c q] eqn:Hr; [|reflexivity].
  apply (f_equal (@length A)) in Hr. rewrite length_rev in Hr. discriminate.
Qed.

Lemma last_rev_hd {A} (l r : list A) a d :
  rev l = a :: r -> last (a :: r) d = hd d l.
Proof.
  intros H. rewrite last_hd_rev, <- H. now rewrite rev_involutive.
Qed.

Lemma tl_rev_snoc {A} (rest : list A) : forall s0,
  tl (rev rest ++ [s0]) = rev (removelast (s0 :: rest)).
Proof.
  induction rest as [|r rest IH]; intros s0; [reflexivity|].
  change (removelast (s0 :: r :: rest)) with (s0 :: removelast (r :: rest)).
  cbn [rev]. rewrite <- IH.
  destruct (rev rest ++ [r]) as [|b q] eqn:Hq; [|reflexivity].
  now destruct (rev rest).
Qed.

Lemma nth_error_neighbours {A} (l : list A) k a b :
  nth_error l k = Some a -> nth_error l (S k) = Some b ->
  exists pre post, l = pre ++ a :: b :: post /\ length pre = k.
Proof.
  intros Ha Hb. destruct (nth_error_split l k Ha) as (pre & post & -> & Hk).
  exists pre. rewrite nth_error_app2 in Hb by lia.
  replace (S k - length pre) with 1 in Hb by lia.
  destruct post as [|b' post]; [discriminate|].
  injection Hb as ->. now exists post.
Qed.

Lemma nth_error_middle {A} (pre : list A) a post :
  nth_error (pre ++ a :: post) (length pre) = Some a.
Proof. rewrite nth_error_app2, Nat.sub_diag by lia. reflexivity. Qed.

Lemma nth_error_middle_next {A} (pre : list A) a b post :
  nth_error (pre ++ a :: b :: post) (S (length pre)) = Some b.
Proof.
  rewrite nth_error_app2 by lia.
  now replace (S (length pre) - length pre) with 1 by lia.
Qed.


Lemma In_rev_cons_removelast (A : Type) (l r : list A) a x :
  rev l = a :: r -> In x r -> In x (removelast l).
Proof.
  intros H Hin. apply rev_cons_inv in H. subst l.
  rewrite removelast_last. now apply -> in_rev.
Qed.

Lemma In_rev_removelast_tl (A : Type) (l r : list A) a x :
  rev l = a :: r -> In x (removelast (a :: r)) -> In x (tl l).
Proof.
  intros H Hin. apply rev_cons_inv in H. subst l.
  rewrite tl_rev_snoc. now apply -> in_rev.
Qed.

Lemma Forall2_In_l (A B : Type) (R : A -> B -> Prop) l l' a :
  Forall2 R l l' -> In a l -> exists b, In b l' /\ R a b.
Proof.
  induction 1 as [|x y l l' Hxy Hl IH]; intros Hin; [contradiction|].
  destruct Hin as [<-|Hin].
  - exists y. split; [now left|assumption].
  - destruct (IH Hin) as (b & Hb & HR). exists b. split; [now right|assumption].
Qed.

Section SmootherTheory.
Context `{NP : NumPy} {TM : Type} `{TMI : !TransitionModel TM}.

Local Abbreviation GaussianStatePrediction := (GaussianStatePrediction TM).
Local Abbreviation State := (State TM).
Local Abbreviation Track := (Track TM).
Local Abbreviation Call := (Call TM).
Local Abbreviation Py := (Py TM).
Local Abbreviation Smoother := (Smoother TM).
Local Abbreviation Locals := (Locals TM).

Implicit Types (self : Smoother) (pred p : GaussianStatePrediction).
Implicit Types (s prev new x y Sk S : State) (log : list Call).
Implicit Types (track pre post rest news acc : list State).

(** ** Reasoning about computations *)

Lemma bind_Return {A B} (m : Py A) (k : A -> Py B) log b :
  bind m k = (log, Return b) <->
  exists l1 a l2, m = (l1, Return a) /\ k a = (l2, Return b) /\ log = l1 ++ l2.
Proof.
  unfold bind. destruct m as [l1 [a|e]].
  - destruct (k a) as [l2 r] eqn:Hk. split.
    + intros H. injection H as <- ->. now exists l1, a, l2.
    + intros (l1' & a' & l2' & H1 & H2 & ->).
      injection H1 as <- <-. rewrite Hk in H2. now injection H2 as <- <-.
  - split; [discriminate|]. intros (? & ? & ? & H & _). discriminate.
Qed.

Lemma bind_ret {A B} (a : A) (k : A -> Py B) : bind (ret a) k = k a.
Proof. unfold bind, ret. now destruct (k a). Qed.

Lemma bind_value {A B} log (a : A) (k : A -> Py B) :
  bind (log, Return a) k = (log ++ fst (k a), snd (k a)).
Proof. unfold bind. now destruct (k a). Qed.

Lemma bind_Raise {A B} log e (k : A -> Py B) :
  bind (log, Raise e) k = (log, Raise e).
Proof. reflexivity. Qed.

(** ** One iteration *)

Lemma smooth_body_first self s pv pd acc :
  smooth_body self s (mkLocals true pv pd acc) =
  (p <- _prediction self s ;;
   ret (mkLocals false (Some s) (Some p) (acc ++ [s]))).
Proof. unfold smooth_body. cbn [firststate]. now rewrite bind_ret. Qed.

Lemma smooth_body_later self s prev pred acc log l' :
  smooth_body self s (mkLocals false (Some prev) (Some pred) acc)
    = (log, Return l') <->
  exists new p,
    iteration self prev pred s new log /\
    _prediction self s = ret p /\
    l' = mkLocals false (Some new) (Some p) (acc ++ [new]).
Proof.
  unfold smooth_body, iteration, _transition_model, call_matrix,
    np_linalg_inv, call_Update_from_state, call_Prediction_from_state,
    Update_from_state, Prediction_from_state, rebuilt.
  cbn [firststate prev_state l_prediction smoothed_track local].
  split.
  - destruct s as [p|u|sv ts]; cbn;
      [destruct (p_transition_model p) as [tm|] eqn:Hp
      |destruct (p_transition_model (prediction (hypothesis u))) as [tm|] eqn:Hp
      |discriminate]; cbn;
      try (destruct (transition_model self) as [tm|] eqn:Hd; cbn; [|discriminate]);
      destruct (linalg_inv (p_covar pred)) as [Sinv|] eqn:Hi; cbn; try discriminate;
      destruct (covar prev) as [Sprev|] eqn:Hc; cbn; try discriminate;
      intros H; injection H as <- <-;
      eexists; eexists; (split; [|split; reflexivity]);
      exists tm, Sinv; eexists; exists Sprev;
      rewrite ?Hp, ?Hd; cbn; repeat split; reflexivity.
  - intros (new & p & (tm & Sinv & Sk & Sprev & Ht & Hi & Hk & Hc & Hn & Hl) & Hp & ->).
    subst new log.
    destruct s as [p0|u|sv ts]; cbn in *; try discriminate;
      injection Hk as <-; injection Hp as <-;
      [destruct (p_transition_model p0) as [tm'|] eqn:Hq
      |destruct (p_transition_model (prediction (hypothesis u))) as [tm'|] eqn:Hq];
      cbn in *; injection Ht as Ht; rewrite ?Ht; subst; cbn;
      rewrite Hi; cbn; rewrite Hc; cbn; reflexivity.
Qed.

(** ** The whole loop *)

Lemma for_each_later_inv self rest : forall prev pred acc log l',
  for_each (smooth_body self) rest
    (mkLocals false (Some prev) (Some pred) acc) = (log, Return l') ->
  exists news prev' pred',
    backward self prev pred rest news log /\
    carried self prev pred rest news prev' pred' /\
    l' = mkLocals false (Some prev') (Some pred') (acc ++ news).
Proof.
  induction rest as [|s rest IH]; intros prev pred acc log l' H.
  - injection H as <- <-. exists [], prev, pred.
    repeat split; [constructor|constructor|]. now rewrite app_nil_r.
  - cbn [for_each] in H. apply bind_Return in H.
    destruct H as (l1 & a & l2 & Hb & Hr & ->).
    apply smooth_body_later in Hb. destruct Hb as (new & p & Hi & Hp & ->).
    apply IH in Hr. destruct Hr as (news & prev' & pred' & Hbw & Hc & ->).
    exists (new :: news), prev', pred'. repeat split.
    + econstructor; eassumption.
    + econstructor; eassumption.
    + now rewrite <- app_assoc.
Qed.

Lemma for_each_later_run self rest : forall prev pred acc news log,
  backward self prev pred rest news log ->
  exists l',
    for_each (smooth_body self) rest
      (mkLocals false (Some prev) (Some pred) acc) = (log, Return l') /\
    smoothed_track l' = acc ++ news.
Proof.
  intros prev pred acc news log H. revert acc.
  induction H as [prev pred|prev pred s new p rest news log1 log2 Hi Hp Hb IH];
    intros acc.
  - eexists. split; [reflexivity|]. cbn. now rewrite app_nil_r.
  - destruct (IH (acc ++ [new])) as (l' & Hr & Ht).
    exists l'. split.
    + cbn [for_each]. apply bind_Return.
      exists log1, (mkLocals false (Some new) (Some p) (acc ++ [new])), log2.
      repeat split; [|assumption].
      apply smooth_body_later. now exists new, p.
    + now rewrite Ht, <- app_assoc.
Qed.

(** When [smooth] returns, and what. *)
Lemma smooth_Return self track log out :
  smooth self track = (log, Return out) <->
  (track = [] /\ out = [] /\ log = []) \/
  exists s0 p0 rest news,
    rev track = s0 :: rest /\
    _prediction self s0 = ret p0 /\
    backward self s0 p0 rest news log /\
    out = rev (s0 :: news).
Proof.
  unfold smooth. split.
  - intros H. apply bind_Return in H.
    destruct H as (l1 & l & l2 & Hf & Hr & ->).
    injection Hr as <- <-. rewrite app_nil_r.
    destruct (rev track) as [|s0 rest] eqn:Hrev.
    + left. injection Hf as <- <-.
      apply (f_equal (@rev _)) in Hrev. rewrite rev_involutive in Hrev.
      now subst.
    + right. cbn [for_each] in Hf. rewrite smooth_body_first in Hf.
      apply bind_Return in Hf. destruct Hf as (la & a & lb & Hb & Hf & ->).
      apply bind_Return in Hb. destruct Hb as (lc & p0 & ld & Hp & Hb & ->).
      injection Hb as <- <-.
      assert (lc = []) by (destruct s0; unfold _prediction, ret, throw in Hp; congruence).
      subst lc. rewrite app_nil_r. cbn [app] in *.
      apply for_each_later_inv in Hf.
      destruct Hf as (news & prev' & pred' & Hbw & _ & ->).
      exists s0, p0, rest, news. now repeat split.
  - intros [(-> & -> & ->)|(s0 & p0 & rest & news & Hrev & Hp & Hbw & ->)].
    + reflexivity.
    + rewrite Hrev. cbn [for_each]. rewrite smooth_body_first, Hp, bind_ret.
      destruct (for_each_later_run ([] ++ [s0]) Hbw) as (l' & Hr & Ht).
      rewrite bind_ret, Hr, bind_value. cbn. now rewrite app_nil_r, Ht.
Qed.

(** ** What a pass that ends normally has done *)

Lemma _prediction_gaussian self s p :
  _prediction self s = ret p -> gaussian s.
Proof. destruct s; cbn; [trivial|trivial|discriminate]. Qed.

Lemma gaussian_prediction self s :
  gaussian s -> exists p, _prediction self s = ret p.
Proof. destruct s; cbn; [eauto|eauto|tauto]. Qed.

Lemma timestamp_rebuilt s sv cov : timestamp (rebuilt s sv cov) = timestamp s.
Proof. now destruct s. Qed.

Lemma state_vector_rebuilt s sv cov :
  gaussian s -> state_vector (rebuilt s sv cov) = sv.
Proof. now destruct s. Qed.

Lemma covar_rebuilt s sv cov :
  gaussian s -> covar (rebuilt s sv cov) = Return cov.
Proof. now destruct s. Qed.

Lemma iteration_gaussian self prev pred s new log :
  iteration self prev pred s new log -> gaussian s.
Proof.
  intros (tm & Sinv & Sk & Sprev & _ & _ & Hk & _).
  destruct s; cbn in *; [trivial|trivial|discriminate].
Qed.

Lemma iteration_timestamp self prev pred s new log :
  iteration self prev pred s new log -> timestamp new = timestamp s.
Proof.
  intros (tm & Sinv & Sk & Sprev & _ & _ & _ & _ & Hn & _).
  cbv zeta in Hn. subst new. apply timestamp_rebuilt.
Qed.

Lemma backward_length self prev pred rest news log :
  backward self prev pred rest news log -> length news = length rest.
Proof. induction 1; cbn; congruence. Qed.

(** Two neighbours [y] (later) and [x] (earlier) of the pass: [x] is
    smoothed against the smoothed [y'] and the prediction of [y]. *)
Lemma backward_adjacent self A : forall prev pred y x B news log,
  backward self prev pred (A ++ y :: x :: B) news log ->
  exists nA y' x' nB py lx,
    news = nA ++ y' :: x' :: nB /\
    length nA = length A /\
    _prediction self y = ret py /\
    timestamp y' = timestamp y /\
    iteration self y' py x x' lx /\
    incl lx log.
Proof.
  induction A as [|a A IH]; intros prev pred y x B news log H.
  - cbn in H. inversion H as [|? ? ? y' py ? news1 l1 l2 Hy Hpy Hb]; subst.
    inversion Hb as [|? ? ? x' px ? news2 l3 l4 Hx Hpx Hb2]; subst.
    exists [], y', x', news2, py, l3. repeat split; try assumption.
    + eapply iteration_timestamp; eassumption.
    + apply incl_appr, incl_appl, incl_refl.
  - cbn in H. inversion H as [|? ? ? a' pa ? news1 l1 l2 Ha Hpa Hb]; subst.
    apply IH in Hb.
    destruct Hb as (nA & y' & x' & nB & py & lx & -> & Hl & Hpy & Ht & Hi & Hin).
    exists (a' :: nA), y', x', nB, py, lx. cbn. repeat split; auto.
    now apply incl_appr.
Qed.

Lemma smooth_length self track log out :
  smooth self track = (log, Return out) -> length out = length track.
Proof.
  intros H. apply smooth_Return in H.
  destruct H as [(-> & -> & _)|(s0 & p0 & rest & news & Hrev & _ & Hb & ->)].
  - reflexivity.
  - rewrite length_rev, <- (length_rev track), Hrev. cbn.
    now rewrite (backward_length Hb).
Qed.

Lemma smooth_adjacent self pre Sk Sk1 post log out :
  smooth self (pre ++ Sk :: Sk1 :: post) = (log, Return out) ->
  exists pre' Sk' Sk1' post' P lx,
    out = pre' ++ Sk' :: Sk1' :: post' /\
    length pre' = length pre /\
    _prediction self Sk1 = ret P /\
    timestamp Sk1' = timestamp Sk1 /\
    iteration self Sk1' P Sk Sk' lx /\
    incl lx log.
Proof.
  intros H. pose proof (smooth_length _ _ H) as Hlen.
  apply smooth_Return in H.
  destruct H as [(Hnil & _)|(s0 & p0 & rest & news & Hrev & Hp0 & Hb & ->)].
  { now destruct pre. }
  rewrite rev_app_distr in Hrev. cbn in Hrev.
  repeat rewrite <- app_assoc in Hrev. cbn in Hrev.
  assert (Hout : exists nA y' x' nB py lx,
             s0 :: news = nA ++ y' :: x' :: nB /\
             length nA = length (rev post) /\
             _prediction self Sk1 = ret py /\
             timestamp y' = timestamp Sk1 /\
             iteration self y' py Sk x' lx /\
             incl lx log).
  { destruct (rev post) as [|a A] eqn:HA; cbn in Hrev.
    - injection Hrev as <- <-.
      inversion Hb as [|? ? ? x' px ? news2 l3 l4 Hx Hpx Hb2]; subst.
      exists [], Sk1, x', news2, p0, l3. repeat split; auto.
      apply incl_appl, incl_refl.
    - injection Hrev as <- <-. apply backward_adjacent in Hb.
      destruct Hb as (nA & y' & x' & nB & py & lx & -> & Hl & Hpy & Ht & Hi & Hin).
      exists (a :: nA), y', x', nB, py, lx. cbn. repeat split; auto. }
  destruct Hout as (nA & y' & x' & nB & py & lx & Heq & Hl & Hpy & Ht & Hi & Hin).
  rewrite Heq in *. rewrite rev_app_distr. cbn.
  repeat rewrite <- app_assoc. cbn.
  exists (rev nB), x', y', (rev nA), py, lx. repeat split; auto.
  rewrite !length_rev in *. rewrite !length_app in Hlen. cbn in Hlen. lia.
Qed.

(** ** The calls of a pass *)

Lemma iteration_calls self prev pred s new log :
  iteration self prev pred s new log ->
  length log = 3 /\
  inversions log = [p_covar pred] /\
  linalg_inv (p_covar pred) <> None /\
  (exists tm, _transition_model self s = ret (Some tm) /\
              matrix_models log = [tm]) /\
  from_state_sources log = [s] /\
  from_state_results log = [new].
Proof.
  intros (tm & Sinv & Sk & Sprev & Ht & Hi & _ & _ & Hn & Hl).
  cbv zeta in Hn, Hl. subst new log. cbn. rewrite Hi.
  repeat split; try discriminate. now exists tm.
Qed.

Lemma backward_log_length self prev pred rest news log :
  backward self prev pred rest news log -> length log = 3 * length rest.
Proof.
  induction 1 as [|prev pred s new p rest news l1 l2 Hi Hp Hb IH]; [reflexivity|].
  destruct (iteration_calls Hi) as (H3 & _).
  rewrite length_app, H3, IH. cbn. lia.
Qed.

Lemma backward_from_state self prev pred rest news log :
  backward self prev pred rest news log ->
  from_state_sources log = rest /\ from_state_results log = news.
Proof.
  induction 1 as [|prev pred s new p rest news l1 l2 Hi Hp Hb [IH1 IH2]];
    [now split|].
  destruct (iteration_calls Hi) as (_ & _ & _ & _ & Hs & Hr).
  unfold from_state_sources, from_state_results in *.
  rewrite !flat_map_app, Hs, Hr, IH1, IH2. now split.
Qed.

Lemma backward_models self prev pred rest news log :
  backward self prev pred rest news log ->
  Forall2 (fun s tm => _transition_model self s = ret (Some tm))
    rest (matrix_models log).
Proof.
  induction 1 as [|prev pred s new p rest news l1 l2 Hi Hp Hb IH];
    [constructor|].
  destruct (iteration_calls Hi) as (_ & _ & _ & (tm & Ht & Hm) & _).
  unfold matrix_models in *. rewrite flat_map_app, Hm. now constructor.
Qed.

Lemma backward_inversions self prev pred rest news log :
  backward self prev pred rest news log ->
  forall s0, _prediction self s0 = ret pred ->
  Forall2 (fun s a => exists p, _prediction self s = ret p /\
                                a = p_covar p /\ linalg_inv a <> None)
    (removelast (s0 :: rest)) (inversions log).
Proof.
  induction 1 as [|prev pred s new p rest news l1 l2 Hi Hp Hb IH];
    intros s0 H0; [constructor|].
  destruct (iteration_calls Hi) as (_ & Hv & Hne & _).
  unfold inversions in *. rewrite flat_map_app, Hv.
  change (removelast (s0 :: s :: rest)) with (s0 :: removelast (s :: rest)).
  constructor; [now exists pred|]. now apply IH.
Qed.

Lemma backward_rebuilt self prev pred rest news log :
  backward self prev pred rest news log ->
  Forall2 (fun s new => gaussian s /\ exists sv cov, new = rebuilt s sv cov)
    rest news.
Proof.
  induction 1 as [|prev pred s new p rest news l1 l2 Hi Hp Hb IH];
    constructor; [|assumption].
  split; [eapply iteration_gaussian; eassumption|].
  destruct Hi as (tm & Sinv & Sk & Sprev & _ & _ & _ & _ & Hn & _).
  cbv zeta in Hn. eauto.
Qed.

(** ** When the pass ends normally *)

Lemma resolvable_gaussian self s : resolvable self s -> gaussian s.
Proof.
  intros [tm H]. destruct s; cbn; trivial.
  unfold _transition_model in H. cbn in H. discriminate.
Qed.

Lemma gaussian_covar s : gaussian s -> exists a, covar s = Return a.
Proof. destruct s; cbn; [eauto|eauto|tauto]. Qed.

Lemma backward_total self rest : forall prev pred,
  (exists a, covar prev = Return a) ->
  (rest <> [] -> exists a, linalg_inv (p_covar pred) = Some a) ->
  (forall A x B, rest = A ++ x :: B ->
     resolvable self x /\ (B <> [] -> invertible_prediction self x)) ->
  exists news log, backward self prev pred rest news log.
Proof.
  induction rest as [|s rest IH]; intros prev pred [Sprev Hc] Hinv Hall.
  - exists [], []. constructor.
  - destruct (Hall [] s rest eq_refl) as [[tm Htm] Hs].
    destruct Hinv as [Sinv Hi]; [discriminate|].
    assert (Hg : gaussian s) by (apply (resolvable_gaussian (self:=self)); now exists tm).
    destruct (gaussian_covar _ Hg) as [Sk Hk].
    destruct (gaussian_prediction self _ Hg) as [p Hp].
    pose (T := matrix tm (timestamp prev - timestamp s)%Z).
    pose (G := Sk *m T^T *m Sinv).
    pose (mean := state_vector s +m G *m (state_vector prev -m p_state_vector pred)).
    pose (cov := Sk +m G *m (Sprev -m p_covar pred) *m G^T).
    destruct (IH (rebuilt s mean cov) p) as (news & log & Hb).
    + exists cov. now apply covar_rebuilt.
    + intros Hne. destruct (Hs Hne) as (p' & a & Hp' & Ha).
      rewrite Hp in Hp'. injection Hp' as <-. now exists a.
    + intros A x B ->. apply (Hall (s :: A) x B). reflexivity.
    + eexists; eexists. econstructor; [|exact Hp|exact Hb].
      exists tm, Sinv, Sk, Sprev. repeat split; assumption.
Qed.

Lemma smooth_total self track :
  smoothable self track ->
  exists log out, smooth self track = (log, Return out).
Proof.
  intros Hs. destruct (rev track) as [|s0 rest] eqn:Hrev.
  - exists [], []. apply smooth_Return. left.
    destruct track; [auto|]. cbn in Hrev. now destruct (rev track).
  - apply rev_cons_inv in Hrev.
    destruct (Hs (rev rest) s0 [] Hrev) as (Hg & _ & Hi).
    destruct (gaussian_prediction self _ Hg) as [p0 Hp0].
    destruct (@backward_total self rest s0 p0) as (news & log & Hb).
    + now apply gaussian_covar.
    + intros Hne. destruct Hi as (p & a & Hp & Ha).
      { intros H. apply (f_equal (@rev _)) in H.
        rewrite rev_involutive in H. contradiction. }
      rewrite Hp0 in Hp. injection Hp as <-. now exists a.
    + intros A x B ->.
      destruct (Hs (rev B) x (rev A ++ [s0])) as (_ & Hr & Hv).
      { rewrite Hrev, rev_app_distr. cbn. now rewrite <- !app_assoc. }
      split.
      * apply Hr. now destruct (rev A).
      * intros Hne. apply Hv. intros H. apply (f_equal (@rev _)) in H.
        rewrite rev_involutive in H. contradiction.
    + exists log, (rev (s0 :: news)). apply smooth_Return. right.
      exists s0, p0, rest, news. repeat split; try assumption.
      rewrite Hrev, rev_app_distr. cbn. now rewrite rev_involutive.
Qed.

Lemma backward_resolvable self prev pred rest news log :
  backward self prev pred rest news log -> Forall (resolvable self) rest.
Proof.
  induction 1 as [|prev pred s new p rest news l1 l2 Hi Hp Hb IH];
    constructor; [|assumption].
  destruct Hi as (tm & _ & _ & _ & Ht & _). now exists tm.
Qed.

(** A pass that returns has found a model for every state but the latest. *)
Lemma smooth_Return_resolvable self pre s post log out :
  post <> [] ->
  smooth self (pre ++ s :: post) = (log, Return out) ->
  resolvable self s.
Proof.
  intros Hne H. apply smooth_Return in H.
  destruct H as [(Hnil & _)|(s0 & p0 & rest & news & Hrev & _ & Hb & _)].
  { now destruct pre. }
  apply backward_resolvable in Hb. rewrite Forall_forall in Hb. apply Hb.
  destruct (exists_last Hne) as (post' & l & ->).
  rewrite app_comm_cons, app_assoc, rev_app_distr in Hrev. cbn in Hrev.
  injection Hrev as _ <-. apply in_rev. rewrite rev_involutive.
  apply in_or_app. right. now left.
Qed.

(** ** When the pass raises *)

Lemma bind_assoc {A B C} (m : Py A) (f : A -> Py B) (g : B -> Py C) :
  bind (bind m f) g = bind m (fun a => bind (f a) g).
Proof.
  destruct m as [l1 [a|e]]; [|reflexivity].
  unfold bind. destruct (f a) as [l2 [b|e]]; [|reflexivity].
  destruct (g b) as [l3 r]. now rewrite app_assoc.
Qed.

Lemma for_each_app (body : State -> Locals -> Py Locals) A : forall B l,
  for_each body (A ++ B) l =
  (l' <- for_each body A l ;; for_each body B l').
Proof.
  induction A as [|a A IH]; intros B l; cbn [for_each app].
  - now rewrite bind_ret.
  - rewrite bind_assoc. destruct (body a l) as [lg [x|e]]; [|reflexivity].
    now rewrite !bind_value, IH.
Qed.

Lemma carried_last self prev pred rest news prev' pred' :
  carried self prev pred rest news prev' pred' ->
  forall s0, _prediction self s0 = ret pred ->
  prev' = last (prev :: news) prev /\
  _prediction self (last (s0 :: rest) s0) = ret pred'.
Proof.
  induction 1 as [prev pred|prev pred s new p rest news prev' pred' Hp Hc IH];
    intros s0 H0; [now split|].
  destruct (IH s Hp) as [-> IH2]. split.
  - change (last (prev :: new :: news) prev) with (last (new :: news) prev).
    apply last_default.
  - change (last (s0 :: s :: rest) s0) with (last (s :: rest) s0).
    now rewrite (last_default rest s s0 s).
Qed.

Lemma smooth_body_unresolvable self s prev pred acc :
  _transition_model self s = ret None ->
  smooth_body self s (mkLocals false (Some prev) (Some pred) acc)
    = ([], Raise AttributeError).
Proof.
  intros H. unfold smooth_body.
  cbn [firststate prev_state l_prediction smoothed_track local].
  now rewrite bind_ret, H, bind_ret.
Qed.

Lemma smooth_body_singular self s prev pred acc tm :
  _transition_model self s = ret (Some tm) ->
  linalg_inv (p_covar pred) = None ->
  smooth_body self s (mkLocals false (Some prev) (Some pred) acc)
    = ([CallMatrix tm (timestamp prev - timestamp s)%Z;
        CallInv (p_covar pred)], Raise LinAlgError).
Proof.
  intros H Hi. unfold smooth_body.
  cbn [firststate prev_state l_prediction smoothed_track local].
  rewrite bind_ret, H, bind_ret.
  assert (Hg : gaussian s) by (apply (resolvable_gaussian (self:=self)); now exists tm).
  destruct (gaussian_covar _ Hg) as [Sk ->].
  unfold call_matrix, np_linalg_inv. cbn. now rewrite Hi.
Qed.

(** The pass over a track begins as the pass over its later part. *)
Lemma smooth_later_part self S1 post log S1' out :
  smooth self (S1 :: post) = (log, Return (S1' :: out)) ->
  exists pred acc,
    _prediction self S1 = ret pred /\
    for_each (smooth_body self) (rev (S1 :: post))
      (mkLocals true None None [])
      = (log, Return (mkLocals false (Some S1') (Some pred) acc)).
Proof.
  unfold smooth. intros H. apply bind_Return in H.
  destruct H as (l1 & l & l2 & Hf & Hr & ->).
  injection Hr as <- Hout. rewrite app_nil_r.
  destruct (rev (S1 :: post)) as [|s0 rest] eqn:Hrev.
  { apply (f_equal (@length _)) in Hrev. rewrite length_rev in Hrev. discriminate. }
  pose proof Hf as Hf'.
  cbn [for_each] in Hf. rewrite smooth_body_first in Hf.
  apply bind_Return in Hf. destruct Hf as (la & a & lb & Hb & Hf & ->).
  apply bind_Return in Hb. destruct Hb as (lc & p0 & ld & Hp & Hb & ->).
  injection Hb as <- <-.
  assert (lc = []) by (destruct s0; unfold _prediction, ret, throw in Hp; congruence).
  subst lc.
  apply for_each_later_inv in Hf.
  destruct Hf as (news & prev' & pred' & Hbw & Hc & ->).
  destruct (carried_last Hc s0 Hp) as [Hprev Hpred].
  rewrite (last_rev_hd _ s0 Hrev) in Hpred. cbn [hd] in Hpred.
  cbn [smoothed_track app] in Hout.
  rewrite (last_hd_rev news s0 s0), Hout in Hprev. cbn [hd] in Hprev.
  subst prev'. exists pred', ([s0] ++ news). split; [assumption|].
  rewrite Hf'. now rewrite app_nil_r.
Qed.

Lemma smooth_raises_after self pre s S1 post log S1' out lg e :
  smooth self (S1 :: post) = (log, Return (S1' :: out)) ->
  (forall pred acc, _prediction self S1 = ret pred ->
     smooth_body self s (mkLocals false (Some S1') (Some pred) acc)
       = (lg, Raise e)) ->
  smooth self (pre ++ s :: S1 :: post) = (log ++ lg, Raise e).
Proof.
  intros H Hbody. apply smooth_later_part in H.
  destruct H as (pred & acc & Hp & Hf).
  unfold smooth.
  replace (rev (pre ++ s :: S1 :: post))
    with (rev (S1 :: post) ++ s :: rev pre).
  2:{ rewrite rev_app_distr. change (rev (s :: S1 :: post)) with (rev (S1 :: post) ++ [s]).
      now rewrite <- app_assoc. }
  rewrite for_each_app, Hf, bind_value. cbn [for_each].
  now rewrite (Hbody pred acc Hp).
Qed.

(** ** Element by element *)

(** Every element of the output is the input element with, at most, its
    mean and covariance replaced. *)
Lemma smooth_rebuilt self track log out :
  smooth self track = (log, Return out) ->
  Forall2 (fun s o => gaussian s /\ exists sv cov, o = rebuilt s sv cov)
    track out.
Proof.
  intros H. apply smooth_Return in H.
  destruct H as [(-> & -> & _)|(s0 & p0 & rest & news & Hrev & Hp0 & Hb & ->)].
  - constructor.
  - apply rev_cons_inv in Hrev. subst track.
    change (rev rest ++ [s0]) with (rev rest ++ rev [s0]).
    rewrite <- rev_app_distr. apply Forall2_rev. cbn.
    constructor; [|now apply backward_rebuilt with (1:=Hb)].
    split; [eapply _prediction_gaussian; eassumption|].
    destruct s0 as [[sv cov ts tm]|[sv cov ts h]|sv ts].
    + now exists sv, cov.
    + now exists sv, cov.
    + cbn in Hp0. discriminate.
Qed.

(** ** The recursion *)

(** C1.  On a track of Gaussian predictions and updates that can be
    smoothed, [smooth] returns, and for every element [Sk] with a later
    neighbour [Sk1] the output element [Sk'] has mean
    [mu_k + G (mu'_k1 - mu_k1|k)] and covariance
    [Sigma_k + G (Sigma'_k1 - Sigma_k1|k) G^T], where
    [G = Sigma_k T^T inv(Sigma_k1|k)], [T = matrix(t_k1 - t_k)],
    [mu_k1|k] and [Sigma_k1|k] belong to the prediction [P] of the original
    [Sk1], and [mu'_k1], [Sigma'_k1] to the smoothed [Sk1']. *)
Theorem smooth_rts_recursion (self : Smoother) (track : Track) :
  smoothable self track ->
  exists log out,
    smooth self track = (log, Return out) /\
    forall k Sk Sk1,
      nth_error track k = Some Sk ->
      nth_error track (S k) = Some Sk1 ->
      exists tm P Sinv Sigma_k Sk' Sk1' Sigma_k1',
        _transition_model self Sk = ret (Some tm) /\
        _prediction self Sk1 = ret P /\
        linalg_inv (p_covar P) = Some Sinv /\
        covar Sk = Return Sigma_k /\
        nth_error out k = Some Sk' /\
        nth_error out (S k) = Some Sk1' /\
        covar Sk1' = Return Sigma_k1' /\
        let T := matrix tm (timestamp Sk1 - timestamp Sk)%Z in
        let G := Sigma_k *m T^T *m Sinv in
        state_vector Sk' =
          state_vector Sk +m G *m (state_vector Sk1' -m p_state_vector P) /\
        covar Sk' =
          Return (Sigma_k +m G *m (Sigma_k1' -m p_covar P) *m G^T).
Proof.
  intros Hs. destruct (smooth_total Hs) as (log & out & Hrun).
  exists log, out. split; [assumption|].
  intros k Sk Sk1 Hk Hk1.
  destruct (nth_error_neighbours track k Hk Hk1) as (pre & post & -> & <-).
  destruct (@smooth_adjacent self pre Sk Sk1 post log out Hrun)
    as (pre' & Sk' & Sk1' & post' & P & lx & -> & Hlen & HP & Hts & Hit & _).
  destruct Hit as (tm & Sinv & Sigma_k & Sigma' & Htm & Hinv & Hc & Hc' & Hnew & _).
  cbv zeta in Hnew.
  assert (Hg : gaussian Sk) by (apply (resolvable_gaussian (self:=self)); now exists tm).
  exists tm, P, Sinv, Sigma_k, Sk', Sk1', Sigma'.
  rewrite <- Hlen, nth_error_middle, nth_error_middle_next.
  rewrite Hts in Hnew. subst Sk'.
  rewrite state_vector_rebuilt, covar_rebuilt by assumption.
  now repeat split.
Qed.

Lemma rebuilt_same_but_estimate s sv cov :
  gaussian s -> same_but_estimate s (rebuilt s sv cov).
Proof. destruct s; cbn; tauto. Qed.

(** C4.  On a track of Gaussian predictions and updates that can be
    smoothed, [smooth] returns a track of the same length whose elements,
    in the order of the input, have the timestamps and the kinds of the
    input's: an update stays an update with the same hypothesis, a
    prediction stays a prediction; mean and covariance apart, nothing
    changes. *)
Theorem smooth_preserves_kinds (self : Smoother) (track : Track) :
  smoothable self track ->
  exists log out,
    smooth self track = (log, Return out) /\
    length out = length track /\
    Forall2 (fun s o => timestamp o = timestamp s /\ same_but_estimate s o)
      track out.
Proof.
  intros Hs. destruct (smooth_total Hs) as (log & out & Hrun).
  exists log, out. split; [assumption|]. split.
  - eapply smooth_length; eassumption.
  - eapply Forall2_impl; [|eapply smooth_rebuilt; eassumption].
    intros s o (Hg & sv & cov & ->). split.
    + apply timestamp_rebuilt.
    + now apply rebuilt_same_but_estimate.
Qed.

(** C5.  The latest element of a track that can be smoothed is the last
    element of the output, as it is; every other element of the output is
    what a call of [from_state] built, one call for each of the other
    input elements.  A track of one element makes no call and comes back
    as it is. *)
Theorem smooth_keeps_latest (self : Smoother) (init : Track) (S : State) :
  smoothable self (init ++ [S]) ->
  exists log init',
    smooth self (init ++ [S]) = (log, Return (init' ++ [S])) /\
    rev (from_state_sources log) = init /\
    rev (from_state_results log) = init' /\
    length log = 3 * length init /\
    (init = [] -> smooth self [S] = ([], Return [S])).
Proof.
  intros Hs. destruct (smooth_total Hs) as (log & out & Hrun).
  pose proof Hrun as H. apply smooth_Return in H.
  destruct H as [(Hnil & _)|(s0 & p0 & rest & news & Hrev & Hp0 & Hb & ->)].
  { now destruct init. }
  rewrite rev_app_distr in Hrev. cbn in Hrev. injection Hrev as <- <-.
  destruct (backward_from_state Hb) as [Hsrc Hres].
  exists log, (rev news). repeat split.
  - exact Hrun.
  - now rewrite Hsrc, rev_involutive.
  - now rewrite Hres.
  - rewrite (backward_log_length Hb). now rewrite length_rev.
  - intros ->. cbn in Hb. inversion Hb; subst. exact Hrun.
Qed.

(** ** Which model, which inversion, which failure *)

Lemma _transition_model_Some self s tm :
  _transition_model self s = ret (Some tm) <->
  exists P, _prediction self s = ret P /\
    match p_transition_model P with
    | Some m => tm = m
    | None => transition_model self = Some tm
    end.
Proof.
  assert (Hcase : forall p : GaussianStatePrediction,
    ((p' <- ret p ;;
     match p_transition_model p' with
     | Some _ => p'' <- ret p ;; ret (p_transition_model p'')
     | None => ret (transition_model self)
     end) : Py (option TM)) = ret (Some tm) <->
    match p_transition_model p with
    | Some m => tm = m
    | None => transition_model self = Some tm
    end).
  { intros p. rewrite bind_ret.
    destruct (p_transition_model p) as [m|] eqn:Hm.
    - rewrite bind_ret, Hm. unfold ret. split; [intros H|intros ->]; congruence.
    - unfold ret. split; [intros H|intros ->]; congruence. }
  unfold _transition_model. destruct s as [p|u|sv ts]; cbn [_prediction].
  - rewrite Hcase. split; [intros H; now exists p|].
    intros (P & HP & H). unfold ret in HP. now injection HP as <-.
  - rewrite Hcase. split; [intros H; now exists (prediction (hypothesis u))|].
    intros (P & HP & H). unfold ret in HP. now injection HP as <-.
  - split; [discriminate|]. intros (P & HP & _). discriminate.
Qed.

(** C2, as the code has it.  When [smooth] returns, [matrix] has been
    called once for each element [Sk] but the latest, on the model attached
    to the prediction associated with [Sk] itself, the earlier state of the
    step, when there is one, and on the smoother's model otherwise; the
    interval is that from [Sk] to its later neighbour. *)
Theorem smooth_uses_model_of_earlier_state
    (self : Smoother) (track : Track) log out :
  smooth self track = (log, Return out) ->
  Forall2 (fun Sk tm =>
             exists Pk, _prediction self Sk = ret Pk /\
               match p_transition_model Pk with
               | Some m => tm = m
               | None => transition_model self = Some tm
               end)
    (removelast track) (rev (matrix_models log)) /\
  forall k Sk Sk1,
    nth_error track k = Some Sk ->
    nth_error track (S k) = Some Sk1 ->
    exists Pk tm,
      _prediction self Sk = ret Pk /\
      match p_transition_model Pk with
      | Some m => tm = m
      | None => transition_model self = Some tm
      end /\
      In (CallMatrix tm (timestamp Sk1 - timestamp Sk)%Z) log.
Proof.
  intros Hrun. split.
  - pose proof Hrun as H. apply smooth_Return in H.
    destruct H as [(-> & -> & ->)|(s0 & p0 & rest & news & Hrev & Hp0 & Hb & ->)].
    + constructor.
    + apply rev_cons_inv in Hrev. subst track. rewrite removelast_last.
      apply Forall2_rev. eapply Forall2_impl; [|eapply backward_models; eassumption].
      intros s tm Htm. now apply _transition_model_Some.
  - intros k Sk Sk1 Hk Hk1.
    destruct (nth_error_neighbours track k Hk Hk1) as (pre & post & -> & <-).
    destruct (@smooth_adjacent self pre Sk Sk1 post log out Hrun)
      as (pre' & Sk' & Sk1' & post' & P & lx & -> & Hlen & HP & Hts & Hit & Hin).
    destruct Hit as (tm & Sinv & Sigma_k & Sigma' & Htm & _ & _ & _ & _ & Hlx).
    cbv zeta in Hlx. apply _transition_model_Some in Htm.
    destruct Htm as (Pk & HPk & Hm). exists Pk, tm. repeat split; try assumption.
    apply Hin. rewrite Hlx, Hts. now left.
Qed.

(** C6, as the code has it.  When [smooth] returns, [np.linalg.inv] has
    been called once for each element but the latest, on the covariance of
    the prediction of that element's later neighbour, and every call has
    succeeded.  No tolerance is involved: when the pass over the later
    part of the track would return and [np.linalg.inv] fails on the
    covariance of the prediction of [S1], the pass raises [LinAlgError]
    right after that call. *)
Theorem smooth_inverts_prediction_covariances
    (self : Smoother) (track : Track) :
  (forall log out,
     smooth self track = (log, Return out) ->
     Forall2 (fun S1 a =>
                exists P, _prediction self S1 = ret P /\
                          a = p_covar P /\ linalg_inv a <> None)
       (tl track) (rev (inversions log))) /\
  (forall pre s S1 post tm P log out,
     track = pre ++ s :: S1 :: post ->
     smooth self (S1 :: post) = (log, Return out) ->
     _transition_model self s = ret (Some tm) ->
     _prediction self S1 = ret P ->
     linalg_inv (p_covar P) = None ->
     smooth self track =
       (log ++ [CallMatrix tm (timestamp S1 - timestamp s)%Z;
                CallInv (p_covar P)],
        Raise LinAlgError)).
Proof.
  split.
  - intros log out H. apply smooth_Return in H.
    destruct H as [(-> & -> & ->)|(s0 & p0 & rest & news & Hrev & Hp0 & Hb & ->)].
    + constructor.
    + pose proof (backward_inversions Hb s0 Hp0) as Hinv.
      apply Forall2_rev in Hinv.
      apply rev_cons_inv in Hrev. subst track.
      now rewrite tl_rev_snoc.
  - intros pre s S1 post tm P log out -> Hrun Htm HP Hsing.
    pose proof (smooth_length _ _ Hrun) as Hlen.
    destruct out as [|S1' out]; [discriminate|].
    pose proof (smooth_rebuilt _ _ Hrun) as Hreb.
    inversion Hreb as [|? ? ? ? (_ & sv & cov & HS1') _]; subst.
    rewrite <- (timestamp_rebuilt S1 sv cov).
    eapply smooth_raises_after; [eassumption|].
    intros pred acc Hpred. rewrite HP in Hpred. injection Hpred as <-.
    now apply smooth_body_singular.
Qed.

(** C9.  [track_smooth], of either class, makes no call and returns
    [None], whatever it is given. *)
Theorem track_smooth_returns_None {PyObject : Type}
    (cls : SmootherClass) (model : option TM)
    (args : list PyObject) (kwargs : list (String.string * PyObject)) :
  calls (track_smooth (mkSmoother cls model) args kwargs) = [] /\
  outcome (track_smooth (mkSmoother cls model) args kwargs) = Return tt.
Proof. unfold track_smooth. split; reflexivity. Qed.

(** A criterion for [smoothable], element by element. *)
Lemma smoothable_intro self track :
  Forall gaussian track ->
  Forall (resolvable self) (removelast track) ->
  Forall (invertible_prediction self) (tl track) ->
  smoothable self track.
Proof.
  rewrite !Forall_forall. intros Hg Hr Hi pre s post ->. repeat split.
  - apply Hg, in_elt.
  - intros Hne. apply Hr. rewrite removelast_app by discriminate.
    apply in_or_app. right. destruct post; [contradiction|]. now left.
  - intros Hne. apply Hi. destruct pre as [|a pre]; [contradiction|].
    cbn. apply in_elt.
Qed.

End SmootherTheory.

(** ** The subclass *)

Section UpcastTheory.
Context `{NP : NumPy} {TM1 TM2 : Type}.
Context `{T1 : !TransitionModel TM1} `{T2 : !TransitionModel TM2}.
Variable upcast : TM1 -> TM2.
Hypothesis upcast_matrix :
  forall (m : TM1) (dt : timedelta), matrix (upcast m) dt = matrix m dt.

Lemma up_py_bind {A B A' B'} (g : A -> A') (h : B -> B')
    (m : Py TM1 A) (k : A -> Py TM1 B) (k' : A' -> Py TM2 B') :
  (forall a, k' (g a) = (up_py upcast) h (k a)) ->
  bind ((up_py upcast) g m) k' = (up_py upcast) h (bind m k).
Proof.
  intros Hk. destruct m as [log [a|e]]; [|reflexivity].
  unfold up_py at 1. cbn [fst snd]. rewrite !bind_value, Hk.
  unfold up_py. cbn [fst snd]. now rewrite map_app.
Qed.

Lemma smooth_body_upcast (self : Smoother TM1) s l :
  smooth_body ((as_extended upcast) self) ((up_state upcast) s) ((up_locals upcast) l) =
  (up_py upcast) (up_locals upcast) (smooth_body self s l).
Proof.
  destruct l as [first prev pred acc].
  destruct self as [cls [d|]];
  destruct first;
  destruct s as [[sv cov ts [m|]]|[sv cov ts [[psv pcov pts [m|]] z]]|sv ts];
  destruct prev as [[[? ? ? ?]|[? ? ? ?]|? ?]|];
  destruct pred as [[qsv qcov qts qtm]|];
  unfold smooth_body, up_py, as_extended, _transition_model, call_matrix,
    np_linalg_inv, call_Update_from_state, call_Prediction_from_state;
  cbn; unfold up_locals, up_prediction, up_update, up_hypothesis; cbn;
  rewrite ?upcast_matrix, ?map_app; try reflexivity;
  match goal with |- context [linalg_inv ?a] => destruct (linalg_inv a) end;
  cbn; unfold up_prediction, up_update, up_hypothesis; cbn;
  rewrite ?map_app; reflexivity.
Qed.

Lemma for_each_upcast (self : Smoother TM1) states : forall l,
  for_each (smooth_body ((as_extended upcast) self)) (map (up_state upcast) states) ((up_locals upcast) l) =
  (up_py upcast) (up_locals upcast) (for_each (smooth_body self) states l).
Proof.
  induction states as [|s states IH]; intros l; [reflexivity|].
  cbn [for_each map]. rewrite smooth_body_upcast.
  apply up_py_bind. exact IH.
Qed.

(** C7.  [ExtendedKalmanSmoother] inherits [smooth]: on a track and a
    model, it makes the calls and gives the result of [KalmanSmoother];
    and with the models seen through the type that its property declares,
    whatever they are, the calls and the result are those of
    [KalmanSmoother], seen the same way. *)
Theorem extended_smooth_is_kalman_smooth
    (model : option TM1) (track : Track TM1) :
  smooth (mkSmoother ExtendedKalmanSmoother model) track =
  smooth (mkSmoother KalmanSmoother model) track /\
  smooth (mkSmoother ExtendedKalmanSmoother (option_map upcast model))
    (map (up_state upcast) track) =
  up_py upcast (map (up_state upcast))
    (smooth (mkSmoother KalmanSmoother model) track).
Proof.
  split; [reflexivity|].
  unfold smooth. rewrite <- map_rev.
  change (mkSmoother ExtendedKalmanSmoother (option_map upcast model))
    with (as_extended upcast (mkSmoother KalmanSmoother model)).
  change (@mkLocals NP TM2 true None None [])
    with (up_locals upcast (@mkLocals NP TM1 true None None [])).
  rewrite for_each_upcast. apply up_py_bind.
  intros l. unfold up_py, up_locals, ret. cbn. now rewrite map_rev.
Qed.

End UpcastTheory.

(** ** How a pass ends, and what it does not depend on *)

Section SmootherOutcomes.
Context `{NP : NumPy} {TM : Type} `{TMI : !TransitionModel TM}.

Local Abbreviation GaussianStatePrediction := (GaussianStatePrediction TM).
Local Abbreviation State := (State TM).
Local Abbreviation Track := (Track TM).
Local Abbreviation Call := (Call TM).
Local Abbreviation Py := (Py TM).
Local Abbreviation Smoother := (Smoother TM).
Local Abbreviation Locals := (Locals TM).

Implicit Types (self : Smoother) (pred p : GaussianStatePrediction).
Implicit Types (s prev new x y Sk S : State) (log : list Call).
Implicit Types (track pre post rest news acc : list State).

(** ** Every way an iteration can end *)

Lemma gaussian_transition_model self s :
  gaussian s -> exists o, _transition_model self s = ret o.
Proof.
  unfold _transition_model.
  destruct s as [p|u|sv ts]; cbn [_prediction gaussian]; [| |tauto]; intros _;
    rewrite bind_ret;
    [destruct (p_transition_model p) eqn:Hm
    |destruct (p_transition_model (prediction (hypothesis u))) eqn:Hm];
    rewrite ?bind_ret; eauto.
Qed.

Lemma smooth_body_not_gaussian self s prev pred acc :
  ~ gaussian s ->
  smooth_body self s (mkLocals false (Some prev) (Some pred) acc)
    = ([], Raise TypeError).
Proof.
  destruct s as [p|u|sv ts]; cbn [gaussian]; [tauto|tauto|]. intros _. reflexivity.
Qed.

Lemma smooth_body_later_cases self s prev pred acc :
  gaussian prev ->
  let body := smooth_body self s (mkLocals false (Some prev) (Some pred) acc) in
  (~ gaussian s /\ body = ([], Raise TypeError)) \/
  (_transition_model self s = ret None /\ body = ([], Raise AttributeError)) \/
  (exists tm,
     _transition_model self s = ret (Some tm) /\
     linalg_inv (p_covar pred) = None /\
     body = ([CallMatrix tm (timestamp prev - timestamp s)%Z;
              CallInv (p_covar pred)], Raise LinAlgError)) \/
  (exists new p log,
     iteration self prev pred s new log /\
     _prediction self s = ret p /\
     body = (log, Return (mkLocals false (Some new) (Some p) (acc ++ [new])))).
Proof.
  intros Hprev body. subst body.
  destruct s as [p0|u|sv ts] eqn:Hs.
  3:{ left. split; [cbn; tauto|reflexivity]. }
  all: rewrite <- Hs;
    assert (Hg : gaussian s) by (subst s; exact I);
    destruct (gaussian_transition_model self _ Hg) as [[tm|] Htm].
  all: try (right; left; split; [assumption|now apply smooth_body_unresolvable]).
  all: destruct (linalg_inv (p_covar pred)) as [Sinv|] eqn:Hinv.
  all: try (right; right; left; exists tm; repeat split; try assumption;
            now apply smooth_body_singular).
  all: right; right; right;
    destruct (gaussian_covar _ Hg) as [Sigma Hc];
    destruct (gaussian_covar _ Hprev) as [Sigma' Hc'];
    destruct (gaussian_prediction self _ Hg) as [p Hp];
    eexists; exists p; eexists;
    assert (Hit : iteration self prev pred s
              (rebuilt s _ _) _)
      by (exists tm, Sinv, Sigma, Sigma'; repeat split; try eassumption; reflexivity);
    split; [exact Hit|]; split; [exact Hp|];
    apply smooth_body_later; eexists; exists p; repeat split; eassumption.
Qed.

Lemma iteration_new_gaussian self prev pred s new log :
  iteration self prev pred s new log -> gaussian new.
Proof.
  intros H. pose proof (iteration_gaussian H) as Hg.
  destruct H as (tm & Sinv & Sk & Sprev & _ & _ & _ & _ & Hn & _).
  cbv zeta in Hn. subst new. now destruct s.
Qed.

(** Why the iterations after the first raise, when they do. *)
Lemma for_each_later_Raise self rest : forall prev pred acc log e s0,
  gaussian prev ->
  _prediction self s0 = ret pred ->
  for_each (smooth_body self) rest
    (mkLocals false (Some prev) (Some pred) acc) = (log, Raise e) ->
  match e with
  | TypeError => exists s, In s rest /\ ~ gaussian s
  | AttributeError =>
      exists s, In s rest /\ _transition_model self s = ret None
  | LinAlgError =>
      exists s p, In s (removelast (s0 :: rest)) /\
                  _prediction self s = ret p /\
                  linalg_inv (p_covar p) = None
  | UnboundLocalError => False
  end.
Proof.
  induction rest as [|s rest IH]; intros prev pred acc log e s0 Hprev H0 H.
  - discriminate H.
  - cbn [for_each] in H.
    change (removelast (s0 :: s :: rest)) with (s0 :: removelast (s :: rest)).
    destruct (@smooth_body_later_cases self s prev pred acc Hprev)
      as [[Hng Hb]|[[Hnone Hb]|[(tm & Htm & Hinv & Hb)|(new & p & lg & Hit & Hp & Hb)]]];
      rewrite Hb in H.
    + injection H as <- <-. exists s. split; [now left|assumption].
    + injection H as <- <-. exists s. split; [now left|assumption].
    + injection H as <- <-. exists s0, pred. repeat split; [now left|assumption..].
    + rewrite bind_value in H. cbn [fst snd] in H.
      destruct (for_each (smooth_body self) rest
                  (mkLocals false (Some new) (Some p) (acc ++ [new])))
        as [lg' [lf|e']] eqn:Hrest; [discriminate H|].
      injection H as <- <-.
      pose proof (IH new p (acc ++ [new]) lg' e' s (iteration_new_gaussian Hit) Hp Hrest) as Hcase.
      destruct e'; try assumption.
      * destruct Hcase as (s' & Hin & Hs'). exists s'. split; [now right|assumption].
      * destruct Hcase as (s' & Hin & Hs'). exists s'. split; [now right|assumption].
      * destruct Hcase as (s' & p' & Hin & Hs'). exists s', p'. split; [now right|assumption].
Qed.

Lemma _transition_model_gaussian self s (o : option TM) :
  _transition_model self s = ret o -> gaussian s.
Proof. destruct s; cbn; [trivial|trivial|discriminate]. Qed.

(** C3, as the code has it.  Nothing is checked before the pass.  A state
    [s] that is not the latest and for which no model is found, neither on
    its prediction nor on the smoother, keeps [smooth] from returning; when
    the pass over the later part of the track would return, the pass over
    the whole track makes the same calls and then raises [AttributeError]
    at [s].  The model of the latest state is never looked up: with such a
    state as the latest, [smooth] raises [AttributeError] only when an
    earlier state has no model either, and returns a track that ends with
    that state when the earlier states are Gaussian and have models and
    [np.linalg.inv] succeeds on the prediction covariances of all states
    but the earliest. *)
Theorem smooth_unresolvable_raises
    (self : Smoother) (pre : Track) (s S1 : State) (post : Track) :
  _transition_model self s = ret None ->
  (forall log out,
     smooth self (pre ++ s :: S1 :: post) <> (log, Return out)) /\
  (forall log out,
     smooth self (S1 :: post) = (log, Return out) ->
     smooth self (pre ++ s :: S1 :: post) = (log, Raise AttributeError)) /\
  (forall (init : Track) (latest : State),
     _transition_model self latest = ret None ->
     (forall log,
        smooth self (init ++ [latest]) = (log, Raise AttributeError) ->
        exists x, In x init /\ _transition_model self x = ret None) /\
     (Forall gaussian init ->
      Forall (resolvable self) init ->
      Forall (invertible_prediction self) (tl (init ++ [latest])) ->
      exists log out,
        smooth self (init ++ [latest]) = (log, Return (out ++ [latest])))).
Proof.
  intros Hnone. split; [|split].
  - intros log out H.
    apply smooth_Return_resolvable in H; [|discriminate].
    destruct H as [tm Htm]. rewrite Hnone in Htm. discriminate.
  - intros log out H. pose proof (smooth_length _ _ H) as Hlen.
    destruct out as [|S1' out]; [discriminate|].
    rewrite <- (app_nil_r log).
    eapply smooth_raises_after; [eassumption|].
    intros pred acc _. now apply smooth_body_unresolvable.
  - intros init latest Hlatest.
    pose proof (_transition_model_gaussian _ _ Hlatest) as Hg.
    destruct (gaussian_prediction self _ Hg) as [p Hp]. split.
    + intros log H. unfold smooth in H.
      rewrite rev_app_distr in H. cbn [rev app for_each] in H.
      rewrite smooth_body_first, Hp, !bind_ret in H.
      destruct (for_each (smooth_body self) (rev init)
                  (mkLocals false (Some latest) (Some p) ([] ++ [latest])))
        as [lg [lf|e']] eqn:Hrest;
        [rewrite bind_value in H; discriminate H|].
      injection H as <- ->.
      destruct (@for_each_later_Raise self (rev init) latest p
                  ([] ++ [latest]) lg AttributeError latest Hg Hp Hrest)
        as (x & Hin & Hx).
      exists x. split; [now apply in_rev|assumption].
    + intros Hgs Hres Hinv.
      assert (Hs : smoothable self (init ++ [latest])).
      { apply smoothable_intro.
        - apply Forall_app. split; [assumption|]. now constructor.
        - now rewrite removelast_last.
        - assumption. }
      destruct (smooth_total Hs) as (log & out & Hrun).
      pose proof Hrun as Hshape. apply smooth_Return in Hshape.
      destruct Hshape as [(Hnil & _)|(s0 & p0 & rest & news & Hrev & _ & _ & ->)].
      { now destruct init. }
      rewrite rev_app_distr in Hrev. cbn in Hrev. injection Hrev as <- <-.
      exists log, (rev news). exact Hrun.
Qed.

(** X13.  Each exception of [smooth] has one cause.  [TypeError]: some
    state of the track is neither a Gaussian prediction nor a Gaussian
    update.  [AttributeError]: some state other than the latest has no
    model on its prediction while the smoother has none.  [LinAlgError]:
    [np.linalg.inv] raises on the prediction covariance of some state
    other than the earliest.  The variables of the loop are never read
    before they are bound. *)
Theorem smooth_raise_reason self track log e :
  smooth self track = (log, Raise e) ->
  match e with
  | TypeError => exists s, In s track /\ ~ gaussian s
  | AttributeError =>
      exists s, In s (removelast track) /\ _transition_model self s = ret None
  | LinAlgError =>
      exists s p, In s (tl track) /\
                  _prediction self s = ret p /\
                  linalg_inv (p_covar p) = None
  | UnboundLocalError => False
  end.
Proof.
  unfold smooth. intros H.
  destruct (rev track) as [|s0 rest] eqn:Hrev; [discriminate H|].
  cbn [for_each] in H. rewrite smooth_body_first in H.
  destruct s0 as [p0|u0|sv ts] eqn:Hs0.
  3:{ injection H as <- <-. exists (OtherState sv ts). split; [|cbn; tauto].
      apply in_rev. rewrite Hrev. now left. }
  all: rewrite <- Hs0 in *;
    assert (Hg : gaussian s0) by (subst s0; exact I);
    destruct (gaussian_prediction self _ Hg) as [p Hp];
    rewrite Hp, !bind_ret in H;
    destruct (for_each (smooth_body self) rest
                (mkLocals false (Some s0) (Some p) ([] ++ [s0])))
      as [lg [lf|e']] eqn:Hrest;
    [rewrite bind_value in H; discriminate H|];
    injection H as <- <-;
    pose proof (@for_each_later_Raise self rest s0 p ([] ++ [s0]) lg e' s0 Hg Hp Hrest) as Hcase;
    destruct e'; try assumption.
  all: try (destruct Hcase as (s' & Hin & Hs'); exists s'; split; [|assumption]).
  all: try (apply in_rev; rewrite Hrev; now right).
  all: try (eapply In_rev_cons_removelast; eassumption).
  all: destruct Hcase as (s' & p' & Hin & Hs'); exists s', p';
    split; [|assumption]; eapply In_rev_removelast_tl; eassumption.
Qed.

(** ** Exactly when the pass returns *)

Lemma smooth_Return_invertible self track log out :
  smooth self track = (log, Return out) ->
  Forall (invertible_prediction self) (tl track).
Proof.
  intros H. apply smooth_Return in H.
  destruct H as [(-> & _)|(s0 & p0 & rest & news & Hrev & Hp0 & Hb & _)].
  - constructor.
  - apply Forall_forall. intros s Hin.
    apply rev_cons_inv in Hrev. subst track. rewrite tl_rev_snoc in Hin.
    apply in_rev in Hin.
    destruct (@Forall2_In_l _ _ _ _ _ _ (backward_inversions Hb s0 Hp0) Hin)
      as (a & _ & p & Hp & -> & Hne).
    exists p. destruct (linalg_inv (p_covar p)) as [a|] eqn:Ha; [|contradiction].
    now exists a.
Qed.

(** X1.  [smooth] returns a track exactly on the tracks that can be
    smoothed: every element a Gaussian prediction or update, a model for
    every element but the latest, an invertible prediction covariance for
    every element but the earliest. *)
Theorem smooth_returns_iff_smoothable self track :
  (exists log out, smooth self track = (log, Return out)) <->
  smoothable self track.
Proof.
  split; [|apply smooth_total].
  intros (log & out & H) pre s post ->. repeat split.
  - destruct (@Forall2_In_l _ _ _ _ _ _ (smooth_rebuilt _ _ H) (in_elt s pre post))
      as (o & _ & Hg & _).
    exact Hg.
  - intros Hne. eapply smooth_Return_resolvable; eassumption.
  - intros Hne. apply smooth_Return_invertible in H.
    rewrite Forall_forall in H. apply H.
    destruct pre as [|a pre]; [contradiction|]. cbn. apply in_elt.
Qed.

(** ** A state of another kind *)

(** X2.  A state that is neither a Gaussian prediction nor a Gaussian
    update makes [smooth] raise [TypeError]: at once and whatever the rest
    of the track when it is the latest state, and otherwise after the
    calls of the pass over the later states, when that pass returns. *)
Theorem smooth_other_state_raises self sv ts :
  (forall init,
     smooth self (init ++ [OtherState sv ts]) = ([], Raise TypeError)) /\
  (forall pre S1 post log out,
     smooth self (S1 :: post) = (log, Return out) ->
     smooth self (pre ++ OtherState sv ts :: S1 :: post)
       = (log, Raise TypeError)).
Proof.
  split.
  - intros init. unfold smooth. rewrite rev_app_distr. reflexivity.
  - intros pre S1 post log out H. pose proof (smooth_length _ _ H) as Hlen.
    destruct out as [|S1' out]; [discriminate|].
    rewrite <- (app_nil_r log).
    eapply smooth_raises_after; [eassumption|].
    intros pred acc _. apply smooth_body_not_gaussian. cbn. tauto.
Qed.

(** ** The later part of a track *)

Lemma backward_app_inv self A : forall prev pred B news log,
  backward self prev pred (A ++ B) news log ->
  exists nA nB lA lB,
    news = nA ++ nB /\ log = lA ++ lB /\
    length nA = length A /\
    backward self prev pred A nA lA.
Proof.
  induction A as [|a A IH]; intros prev pred B news log H.
  - exists [], news, [], log. repeat split. constructor.
  - cbn in H. inversion H as [|? ? ? a' pa ? news1 l1 l2 Ha Hpa Hb]; subst.
    destruct (IH _ _ _ _ _ Hb) as (nA & nB & lA & lB & -> & -> & Hlen & HbA).
    exists (a' :: nA), nB, (l1 ++ lA), lB. repeat split.
    + now rewrite app_assoc.
    + cbn. now rewrite Hlen.
    + econstructor; eassumption.
Qed.

(** X3.  The smoothed later part of a track does not depend on what comes
    before it: when [smooth] returns on a track, it returns on every
    suffix, with the matching suffix of the output, and the calls for the
    suffix are those made first. *)
Theorem smooth_suffix self pre post log out :
  smooth self (pre ++ post) = (log, Return out) ->
  exists out_pre out_post log_pre log_post,
    smooth self post = (log_post, Return out_post) /\
    out = out_pre ++ out_post /\
    length out_pre = length pre /\
    log = log_post ++ log_pre.
Proof.
  intros H. pose proof (smooth_length _ _ H) as Hlen.
  destruct (rev post) as [|s0 restp] eqn:Hpost.
  { assert (post = []) as ->.
    { apply (f_equal (@rev _)) in Hpost. now rewrite rev_involutive in Hpost. }
    exists out, [], log, []. rewrite app_nil_r in *. now repeat split. }
  apply smooth_Return in H.
  destruct H as [(Hnil & _)|(s0' & p0 & rest & news & Hrev & Hp0 & Hb & ->)].
  { apply (f_equal (@rev _)) in Hnil. rewrite rev_app_distr, Hpost in Hnil.
    discriminate Hnil. }
  rewrite rev_app_distr, Hpost in Hrev. cbn in Hrev. injection Hrev as <- <-.
  destruct (backward_app_inv _ _ Hb) as (nA & nB & lA & lB & -> & -> & Hl & HbA).
  exists (rev nB), (rev (s0 :: nA)), lB, lA. repeat split.
  - apply smooth_Return. right. exists s0, p0, restp, nA. now repeat split.
  - cbn. rewrite rev_app_distr. now rewrite app_assoc.
  - rewrite length_rev. rewrite length_rev in Hlen. cbn [length] in Hlen.
    rewrite !length_app in Hlen.
    apply (f_equal (@length _)) in Hpost. rewrite length_rev in Hpost.
    cbn [length] in Hpost. lia.
Qed.

(** X4.  An error in the later part of a track is the error of the whole
    track: when [smooth] raises on a suffix, it raises the same exception
    after the same calls on the track. *)
Theorem smooth_suffix_raises self pre post log e :
  smooth self post = (log, Raise e) ->
  smooth self (pre ++ post) = (log, Raise e).
Proof.
  unfold smooth. intros H. rewrite rev_app_distr, for_each_app.
  destruct (for_each (smooth_body self) (rev post)
              (mkLocals true None None [])) as [lg [l|e']].
  - rewrite bind_value in H. discriminate H.
  - injection H as <- <-. reflexivity.
Qed.

(** ** Models that are not looked up *)

Lemma smooth_body_default self self' s l :
  firststate l = true \/ attached_model s <> None ->
  smooth_body self s l = smooth_body self' s l.
Proof.
  destruct l as [first prev pred acc]. cbn [firststate].
  destruct first; [intros _; reflexivity|].
  intros [H|H]; [discriminate H|].
  destruct s as [[sv cov ts [m|]]|[sv cov ts [[psv pcov pts [m|]] z]]|sv ts];
    cbn in H; try contradiction; reflexivity.
Qed.

Lemma for_each_default self self' rest : forall l,
  Forall (fun s => attached_model s <> None) rest ->
  for_each (smooth_body self) rest l = for_each (smooth_body self') rest l.
Proof.
  induction rest as [|s rest IH]; intros l H; [reflexivity|].
  inversion H as [|? ? Hs Hrest]; subst. cbn [for_each].
  rewrite (smooth_body_default self self' s l) by now right.
  destruct (smooth_body self' s l) as [lg [l'|e]]; [|reflexivity].
  now rewrite !bind_value, IH.
Qed.

(** X5.  The model of the smoother is looked up only for a state whose
    prediction carries none: when every state but the latest carries a
    model, [smooth] makes the same calls and gives the same result
    whatever the smoother's own model and class. *)
Theorem smooth_default_unused self self' track :
  Forall (fun s => attached_model s <> None) (removelast track) ->
  smooth self track = smooth self' track.
Proof.
  intros H. unfold smooth.
  destruct (rev track) as [|s0 rest] eqn:Hrev; [reflexivity|].
  apply rev_cons_inv in Hrev. subst track. rewrite removelast_last in H.
  cbn [for_each].
  rewrite (smooth_body_default self self' s0 (mkLocals true None None []))
    by now left.
  destruct (smooth_body self' s0 (mkLocals true None None [])) as [lg [l'|e]];
    [|reflexivity].
  rewrite !bind_value, (@for_each_default self self' rest l'); [reflexivity|].
  apply Forall_forall. intros s Hin. rewrite Forall_forall in H.
  apply H. now apply -> in_rev.
Qed.

Lemma iteration_with_model self prev pred s new log m :
  iteration self prev pred s new log ->
  iteration self (with_model m prev)
    (mkPrediction (p_state_vector pred) (p_covar pred) (p_timestamp pred) m)
    s new log.
Proof.
  intros (tm & Sinv & Sk & Sprev & Htm & Hinv & Hc & Hc' & Hnew & Hlog).
  exists tm, Sinv, Sk, Sprev. cbv zeta in *.
  assert (Ht : timestamp (with_model m prev) = timestamp prev) by now destruct prev.
  assert (Hv : state_vector (with_model m prev) = state_vector prev) by now destruct prev.
  assert (Hcv : covar (with_model m prev) = covar prev) by now destruct prev.
  rewrite Ht, Hv, Hcv. cbn [p_covar p_state_vector]. now repeat split.
Qed.

(** X6.  The model attached to the latest state is never looked up: with
    another model there, or none, [smooth] returns when it did, after the
    same calls and with the same smoothed states before the latest. *)
Theorem smooth_latest_model_unused self init S m log out :
  smooth self (init ++ [S]) = (log, Return (out ++ [S])) ->
  smooth self (init ++ [with_model m S])
    = (log, Return (out ++ [with_model m S])).
Proof.
  intros H. apply smooth_Return in H.
  destruct H as [(Hnil & _)|(s0 & p0 & rest & news & Hrev & Hp0 & Hb & Hout)].
  { now destruct init. }
  rewrite rev_app_distr in Hrev. cbn in Hrev. injection Hrev as <- <-.
  cbn [rev] in Hout. apply app_inj_tail in Hout. destruct Hout as [-> _].
  apply smooth_Return. right.
  exists (with_model m S),
    (mkPrediction (p_state_vector p0) (p_covar p0) (p_timestamp p0) m),
    (rev init), news.
  repeat split.
  - now rewrite rev_app_distr.
  - destruct S as [p|u|sv ts]; cbn in *; [| |discriminate Hp0];
      unfold ret in Hp0; injection Hp0 as <-; reflexivity.
  - inversion Hb as [|? ? s new p rest' news' l1 l2 Hit Hp Hb']; subst.
    + constructor.
    + econstructor; [|eassumption..]. now apply iteration_with_model.
Qed.

End SmootherOutcomes.

(** ** Exact arithmetic *)

Section ExactArithmetic.
Context `{NP : NumPy} {TM : Type} `{TMI : !TransitionModel TM}.

Local Abbreviation GaussianStatePrediction := (GaussianStatePrediction TM).
Local Abbreviation State := (State TM).
Local Abbreviation Call := (Call TM).
Local Abbreviation Smoother := (Smoother TM).

Implicit Types (self : Smoother) (pred p : GaussianStatePrediction).
Implicit Types (s prev new : State) (log : list Call).
Implicit Types (track rest news : list State).

(** What arithmetic on finite arrays gives when a difference is zero. *)
Hypothesis mean_unchanged :
  forall b G a : ndarray, b +m G *m (a -m a) = b.
Hypothesis covar_unchanged :
  forall b G a : ndarray, b +m G *m (a -m a) *m G^T = b.

Lemma backward_predictions self prev pred rest news log :
  backward self prev pred rest news log ->
  state_vector prev = p_state_vector pred ->
  covar prev = Return (p_covar pred) ->
  Forall (fun s => isinstance_Prediction s = true) rest ->
  Forall2 (fun s o => state_vector o = state_vector s /\
                      covar o = covar s /\
                      timestamp o = timestamp s) rest news.
Proof.
  induction 1 as [|prev pred s new p rest news l1 l2 Hit Hp Hb IH];
    intros Hv Hc Hall; [constructor|].
  inversion Hall as [|? ? Hs Hrest]; subst.
  destruct s as [q| |]; try discriminate Hs.
  destruct Hit as (tm & Sinv & Sk & Sprev & _ & _ & Hk & Hk' & Hnew & _).
  cbv zeta in Hnew. rewrite Hc in Hk'. injection Hk' as <-.
  injection Hk as <-. rewrite Hv, mean_unchanged, covar_unchanged in Hnew.
  unfold ret in Hp. injection Hp as <-. subst new.
  constructor.
  - now repeat split.
  - apply IH; [reflexivity|reflexivity|assumption].
Qed.

(** X7.  With exact arithmetic, smoothing a track of predictions changes
    no estimate: each step corrects by the difference between the later
    state and its own prediction, which is the later state itself. *)
Theorem smooth_predictions_unchanged self track :
  Forall (fun s => isinstance_Prediction s = true) track ->
  smoothable self track ->
  exists log out,
    smooth self track = (log, Return out) /\
    Forall2 (fun s o => state_vector o = state_vector s /\
                        covar o = covar s /\
                        timestamp o = timestamp s) track out.
Proof.
  intros Hall Hs. destruct (smooth_total Hs) as (log & out & Hrun).
  exists log, out. split; [exact Hrun|].
  apply smooth_Return in Hrun.
  destruct Hrun as [(-> & -> & _)|(s0 & p0 & rest & news & Hrev & Hp0 & Hb & ->)].
  - constructor.
  - apply rev_cons_inv in Hrev. subst track.
    apply Forall_app in Hall. destruct Hall as [Hrest Hs0].
    inversion Hs0 as [|? ? H0 _]; subst.
    destruct s0 as [q| |]; try discriminate H0.
    unfold ret in Hp0. cbn in Hp0. injection Hp0 as <-.
    change (rev rest ++ [Pred q]) with (rev rest ++ rev [Pred q]).
    rewrite <- rev_app_distr. apply Forall2_rev. cbn [app].
    constructor; [now repeat split|].
    apply (backward_predictions Hb); [reflexivity|reflexivity|].
    apply Forall_forall. intros s Hin. rewrite Forall_forall in Hrest.
    apply Hrest. now apply -> in_rev.
Qed.

End ExactArithmetic.

(** ** Runs of the one-dimensional instance *)

Import Scalar.

Lemma run_S0_S1 :
  smooth ks [S0; S1] =
  ([CallMatrix still 1%Z; CallInv (2 : Q);
    CallFromState S0 (1 # 2)%Q (3 # 4)%Q],
   Return [S0_smoothed; S1]).
Proof. vm_compute. reflexivity. Qed.

Lemma run_S0_L1 :
  smooth ks [S0; L1] =
  ([CallMatrix still 1%Z; CallInv (1 : Q); CallFromState S0 (0 : Q) (1 : Q)],
   Return [S0; L1]).
Proof. vm_compute. reflexivity. Qed.

Lemma run_N0_S0_S1 :
  smooth ks [N0; S0; S1] =
  ([CallMatrix still 1%Z; CallInv (2 : Q);
    CallFromState S0 (1 # 2)%Q (3 # 4)%Q],
   Raise AttributeError).
Proof. vm_compute. reflexivity. Qed.

Lemma smoothable_S0_S1 : smoothable ks [S0; S1].
Proof.
  apply smoothable_intro.
  - repeat constructor.
  - repeat constructor. now exists still.
  - repeat constructor. exists (mkPrediction (NP:=numpy) (1 : Q) (2 : Q) 1%Z (Some drift)).
    exists (1 # 2)%Q. split; reflexivity.
Qed.

(** The recursion at [S0; S1]: the smoothed [S0] has mean [1/2] and
    covariance [3/4]. *)
Lemma smooth_rts_recursion_witness :
  smoothable ks [S0; S1] /\
  exists log out Sk',
    smooth ks [S0; S1] = (log, Return out) /\
    nth_error out 0 = Some Sk' /\
    state_vector Sk' = (1 # 2)%Q /\
    covar Sk' = Return (3 # 4)%Q.
Proof.
  split; [exact smoothable_S0_S1|].
  destruct (smooth_rts_recursion smoothable_S0_S1) as (log & out & Hrun & Hrec).
  destruct (Hrec 0 S0 S1 eq_refl eq_refl)
    as (tm & P & Sinv & Sigma_k & Sk' & Sk1' & Sigma' & Htm & HP & Hinv
        & Hc & Hk & Hk1 & Hc' & Hmean & Hcov).
  exists log, out, Sk'. split; [exact Hrun|]. split; [exact Hk|].
  rewrite run_S0_S1 in Hrun. injection Hrun as <- <-.
  injection Hk as <-. split; reflexivity.
Defined.

Lemma smooth_preserves_kinds_witness :
  smoothable ks [S0; S1] /\
  exists log out,
    smooth ks [S0; S1] = (log, Return out) /\
    length out = 2 /\
    Forall2 (fun s o => timestamp o = timestamp s /\ same_but_estimate s o)
      [S0; S1] out.
Proof.
  split; [exact smoothable_S0_S1|].
  exact (smooth_preserves_kinds smoothable_S0_S1).
Defined.

Lemma smooth_keeps_latest_witness :
  smoothable ks ([S0] ++ [S1]) /\
  exists log init',
    smooth ks ([S0] ++ [S1]) = (log, Return (init' ++ [S1])) /\
    rev (from_state_sources log) = [S0] /\
    rev (from_state_results log) = init' /\
    length log = 3.
Proof.
  split; [exact smoothable_S0_S1|].
  destruct (smooth_keeps_latest [S0] S1 smoothable_S0_S1)
    as (log & init' & Hrun & Hsrc & Hres & Hlen & _).
  exists log, init'. repeat split; assumption.
Defined.

(** The claim names the model of [S1], [drift]; the call is on the model
    of [S0], [still]. *)
Lemma later_model_is_not_used : ~ later_model_is_used ks [S0; S1].
Proof.
  intros H. specialize (H _ _ run_S0_S1).
  change (Forall2
            (fun Sk1 tm => _transition_model ks Sk1 = ret (Some tm))
            [S1] [still]) in H.
  inversion H as [|? ? ? ? Heq _]. discriminate Heq.
Qed.

Lemma smooth_uses_model_of_earlier_state_witness :
  smooth ks [S0; S1] =
    ([CallMatrix still 1%Z; CallInv (2 : Q);
      CallFromState S0 (1 # 2)%Q (3 # 4)%Q],
     Return [S0_smoothed; S1]) /\
  exists Pk tm,
    _prediction ks S0 = ret Pk /\
    match p_transition_model Pk with
    | Some m => tm = m
    | None => transition_model ks = Some tm
    end /\
    In (CallMatrix tm (timestamp S1 - timestamp S0)%Z)
      [CallMatrix still 1%Z; CallInv (2 : Q);
       CallFromState S0 (1 # 2)%Q (3 # 4)%Q].
Proof.
  split; [exact run_S0_S1|].
  exact (proj2 (smooth_uses_model_of_earlier_state ks [S0; S1] run_S0_S1)
           0 S0 S1 eq_refl eq_refl).
Defined.

(** [L1], the latest state, has no model and the smoother has none: the
    track is smoothed.  [N0] has none either: the error comes after the
    step of [S0]. *)
Lemma fails_before_the_pass_fails :
  ~ fails_before_the_pass ks [S0; L1] /\
  ~ fails_before_the_pass ks [N0; S0; S1].
Proof.
  split; intros H.
  - destruct H as [e He].
    + exists L1. split; [right; now left|reflexivity].
    + rewrite run_S0_L1 in He. discriminate He.
  - destruct H as [e He].
    + exists N0. split; [now left|reflexivity].
    + rewrite run_N0_S0_S1 in He. discriminate He.
Qed.

Lemma smooth_unresolvable_raises_witness :
  _transition_model ks N0 = ret None /\
  (forall log out, smooth ks [N0; S0; S1] <> (log, Return out)) /\
  smooth ks [N0; S0; S1] =
    ([CallMatrix still 1%Z; CallInv (2 : Q);
      CallFromState S0 (1 # 2)%Q (3 # 4)%Q],
     Raise AttributeError) /\
  _transition_model ks L1 = ret None /\
  exists log out, smooth ks ([S0] ++ [L1]) = (log, Return (out ++ [L1])).
Proof.
  split; [reflexivity|].
  destruct (smooth_unresolvable_raises ks [] N0 S0 [S1] eq_refl)
    as (Hno & Hraise & Hlatest).
  split; [exact Hno|]. split; [exact (Hraise _ _ run_S0_S1)|].
  split; [reflexivity|].
  apply (proj2 (Hlatest [S0] L1 eq_refl)).
  - repeat constructor.
  - repeat constructor. now exists still.
  - repeat constructor.
    exists (mkPrediction (NP:=numpy) (TM:=LinearModel) (2 : Q) (1 : Q) 1%Z None),
      (1 : Q).
    split; reflexivity.
Defined.

(** Whatever the tolerance, the covariance [[tol]] is within it and is
    inverted. *)
Lemma no_tolerance : ~ exists tol, (0 < tol)%Q /\ raises_beyond tol.
Proof.
  intros (tol & Hpos & H).
  destruct (H tol) as [log Hl].
  { unfold singular_beyond. rewrite Qabs_pos; [apply Qle_refl|now apply Qlt_le_weak]. }
  assert (Hs : smoothable ks [S0; with_covar tol]).
  { apply smoothable_intro.
    - repeat constructor.
    - repeat constructor. now exists still.
    - repeat constructor.
      exists (mkPrediction (NP:=numpy) (TM:=LinearModel) (2 : Q) tol 1%Z None), (Qred (/ tol)).
      split; [reflexivity|].
      cbn [linalg_inv numpy p_covar]. destruct (Qeq_bool tol 0) eqn:E; [|reflexivity].
      apply Qeq_bool_eq in E. rewrite E in Hpos. discriminate Hpos. }
  destruct (smooth_total Hs) as (log' & out & Hrun).
  rewrite Hrun in Hl. discriminate Hl.
Qed.

Lemma run_S0_singular :
  smooth ks [with_covar 0] = ([], Return [with_covar 0]).
Proof. vm_compute. reflexivity. Qed.

Lemma smooth_inverts_prediction_covariances_witness :
  Forall2 (fun S1 a =>
             exists P, _prediction ks S1 = ret P /\
                       a = p_covar P /\ linalg_inv a <> None)
    [S1] [(2 : Q)] /\
  smooth ks [S0; with_covar 0] =
    ([CallMatrix still 1%Z; CallInv (0 : Q)], Raise LinAlgError).
Proof.
  split.
  - exact (proj1 (smooth_inverts_prediction_covariances ks [S0; S1])
             _ _ run_S0_S1).
  - exact (proj2 (smooth_inverts_prediction_covariances ks [S0; with_covar 0])
             [] S0 (with_covar 0) [] still
             (mkPrediction (NP:=numpy) (2 : Q) (0 : Q) 1%Z None) _ _
             eq_refl run_S0_singular eq_refl eq_refl eq_refl).
Defined.

(** A linear model seen as any model has the matrix it had. *)
Lemma extended_smooth_is_kalman_smooth_witness :
  (forall (m : LinearModel) (dt : timedelta),
     matrix (FromLinear m) dt = matrix m dt) /\
  smooth (mkSmoother ExtendedKalmanSmoother None) [S0; S1] = smooth ks [S0; S1] /\
  smooth (mkSmoother ExtendedKalmanSmoother None)
    (map (up_state FromLinear) [S0; S1]) =
  up_py FromLinear (map (up_state FromLinear)) (smooth ks [S0; S1]).
Proof.
  split; [reflexivity|].
  exact (extended_smooth_is_kalman_smooth FromLinear
           (fun m dt => eq_refl) None [S0; S1]).
Defined.

(** ** Further runs of the one-dimensional instance *)

Lemma run_S0_singular_later :
  smooth ks [S0; with_covar 0] =
  ([CallMatrix still 1%Z; CallInv (0 : Q)], Raise LinAlgError).
Proof. vm_compute. reflexivity. Qed.

(** [N0] carries no model and the smoother has none. *)
Lemma smooth_raise_reason_witness :
  smooth ks [N0; S0; S1] =
    ([CallMatrix still 1%Z; CallInv (2 : Q);
      CallFromState S0 (1 # 2)%Q (3 # 4)%Q],
     Raise AttributeError) /\
  exists s, In s (removelast [N0; S0; S1]) /\ _transition_model ks s = ret None.
Proof.
  split; [exact run_N0_S0_S1|].
  exact (@smooth_raise_reason _ _ _ ks [N0; S0; S1] _ _ run_N0_S0_S1).
Defined.

Lemma smooth_returns_iff_smoothable_witness :
  smoothable ks [S0; S1] /\ ~ smoothable ks [N0; S0; S1].
Proof.
  split.
  - apply (proj1 (smooth_returns_iff_smoothable ks [S0; S1])).
    eexists. eexists. exact run_S0_S1.
  - intros H.
    apply (proj2 (smooth_returns_iff_smoothable ks [N0; S0; S1])) in H.
    destruct H as (log & out & H). rewrite run_N0_S0_S1 in H. discriminate H.
Defined.

(** A state of another kind before [S0; S1]: the error comes after the
    calls of the step of [S0]. *)
Lemma smooth_other_state_raises_witness :
  smooth ks ([S0] ++ [OtherState (TM:=LinearModel) (5 : Q) 2%Z])
    = ([], Raise TypeError) /\
  smooth ks ([] ++ OtherState (5 : Q) (-1)%Z :: S0 :: [S1]) =
    ([CallMatrix still 1%Z; CallInv (2 : Q);
      CallFromState S0 (1 # 2)%Q (3 # 4)%Q],
     Raise TypeError).
Proof.
  split.
  - exact (proj1 (smooth_other_state_raises ks (5 : Q) 2%Z) [S0]).
  - exact (proj2 (smooth_other_state_raises ks (5 : Q) (-1)%Z)
             [] S0 [S1] _ _ run_S0_S1).
Defined.

Lemma smooth_suffix_witness :
  smooth ks ([S0] ++ [S1]) =
    ([CallMatrix still 1%Z; CallInv (2 : Q);
      CallFromState S0 (1 # 2)%Q (3 # 4)%Q],
     Return [S0_smoothed; S1]) /\
  exists out_pre out_post log_pre log_post,
    smooth ks [S1] = (log_post, Return out_post) /\
    [S0_smoothed; S1] = out_pre ++ out_post /\
    length out_pre = length [S0] /\
    [CallMatrix still 1%Z; CallInv (2 : Q);
     CallFromState S0 (1 # 2)%Q (3 # 4)%Q] = log_post ++ log_pre.
Proof.
  split; [exact run_S0_S1|].
  exact (@smooth_suffix _ _ _ ks [S0] [S1] _ _ run_S0_S1).
Defined.

Lemma smooth_suffix_raises_witness :
  smooth ks [S0; with_covar 0] =
    ([CallMatrix still 1%Z; CallInv (0 : Q)], Raise LinAlgError) /\
  smooth ks ([N0; S1] ++ [S0; with_covar 0]) =
    ([CallMatrix still 1%Z; CallInv (0 : Q)], Raise LinAlgError).
Proof.
  split; [exact run_S0_singular_later|].
  exact (@smooth_suffix_raises _ _ _ ks [N0; S1] [S0; with_covar 0] _ _
           run_S0_singular_later).
Defined.

(** [S0] carries a model; [L1], the latest state, carries none. *)
Lemma smooth_default_unused_witness :
  Forall (fun s => attached_model s <> None) (removelast [S0; L1]) /\
  smooth ks [S0; L1]
  = smooth (mkSmoother ExtendedKalmanSmoother (Some drift)) [S0; L1].
Proof.
  assert (H : Forall (fun s : State LinearModel => attached_model s <> None)
                (removelast [S0; L1])).
  { constructor; [discriminate|constructor]. }
  split; [exact H|].
  exact (@smooth_default_unused _ _ _ ks
           (mkSmoother ExtendedKalmanSmoother (Some drift)) [S0; L1] H).
Defined.

Lemma smooth_latest_model_unused_witness :
  smooth ks ([S0] ++ [L1]) =
    ([CallMatrix still 1%Z; CallInv (1 : Q); CallFromState S0 (0 : Q) (1 : Q)],
     Return ([S0] ++ [L1])) /\
  smooth ks ([S0] ++ [with_model (Some drift) L1]) =
    ([CallMatrix still 1%Z; CallInv (1 : Q); CallFromState S0 (0 : Q) (1 : Q)],
     Return ([S0] ++ [with_model (Some drift) L1])).
Proof.
  split; [exact run_S0_L1|].
  exact (@smooth_latest_model_unused _ _ _ ks [S0] L1 (Some drift) _ [S0]
           run_S0_L1).
Defined.

(** ** A run of the instance with exact arithmetic *)

Import Exact.

Lemma smooth_predictions_unchanged_witness :
  (forall b G a : Qc, (b + G * (a - a) = b)%Qc) /\
  Forall (fun s => isinstance_Prediction s = true) [W0; W1] /\
  exists log out,
    smooth (mkSmoother KalmanSmoother (@None RandomWalk)) [W0; W1]
      = (log, Return out) /\
    Forall2 (fun s o => state_vector o = state_vector s /\
                        covar o = covar s /\
                        timestamp o = timestamp s) [W0; W1] out.
Proof.
  assert (H1 : forall b G a : Qc, (b + G * (a - a) = b)%Qc) by (intros; ring).
  assert (H2 : forall b G a : Qc, (b + G * (a - a) * G = b)%Qc) by (intros; ring).
  split; [exact H1|]. split; [repeat constructor|].
  apply (smooth_predictions_unchanged (NP:=numpy) H1 H2).
  - repeat constructor.
  - apply smoothable_intro.
    + repeat constructor.
    + repeat constructor. now exists random_walk.
    + repeat constructor.
      exists (mkPrediction (NP:=numpy) (Q2Qc 2) (Q2Qc 3) 1%Z (Some random_walk)),
        (/ Q2Qc 3)%Qc.
      split; [reflexivity|]. cbn [linalg_inv numpy p_covar].
      destruct (Qc_eq_dec (Q2Qc 3) 0) as [E|_]; [discriminate E|reflexivity].
Defined.

(** ** Rounding to binary64 *)

Import Binary64.

Lemma nearest_even_near (m : Q) :
  (m - (1 # 2) <= inject_Z (nearest_even m) <= m + (1 # 2))%Q.
Proof.
  unfold nearest_even.
  pose proof (Qfloor_le m) as Hl. pose proof (Qlt_floor m) as Hu.
  rewrite inject_Z_plus in Hu. change (inject_Z 1) with 1%Q in Hu.
  destruct (Qcompare_spec (m - inject_Z (Qfloor m)) (1 # 2)) as [E|L|G].
  - destruct (Z.even (Qfloor m)).
    + lra.
    + rewrite inject_Z_plus. change (inject_Z 1) with 1%Q. lra.
  - lra.
  - rewrite inject_Z_plus. change (inject_Z 1) with 1%Q. lra.
Qed.

Lemma Qmake_as_div (n : Z) (d : positive) :
  (n # d == inject_Z n / inject_Z (Zpos d))%Q.
Proof. apply Qmake_Qdiv. Qed.

Lemma pow2_pos (k : Z) : (0 < 2 ^ k)%Q.
Proof. apply Qpower_0_lt. reflexivity. Qed.

Lemma pow2_succ (k : Z) : (2 ^ (k + 1) == 2 * 2 ^ k)%Q.
Proof. rewrite Qpower_plus by discriminate. change (2 ^ 1)%Q with 2%Q. ring. Qed.

Lemma pow2_inject (k : Z) : (0 <= k)%Z -> (inject_Z (2 ^ k) == 2 ^ k)%Q.
Proof. intros H. now rewrite Zpower_Qpower. Qed.

Lemma floor_log2_spec (x : Q) :
  (0 < x)%Q -> (2 ^ floor_log2 x <= x < 2 ^ (floor_log2 x + 1))%Q.
Proof.
  intros Hx. destruct x as [n d].
  assert (Hn : (0 < n)%Z).
  { unfold Qlt in Hx. cbn in Hx. lia. }
  unfold floor_log2. cbn [Qnum Qden].
  set (a := Z.log2 n). set (b := Z.log2 (Zpos d)).
  assert (Ha : (0 <= a)%Z) by apply Z.log2_nonneg.
  assert (Hb : (0 <= b)%Z) by apply Z.log2_nonneg.
  destruct (Z.log2_spec n Hn) as [Hn1 Hn2].
  destruct (Z.log2_spec (Zpos d) eq_refl) as [Hd1 Hd2].
  fold a in Hn1, Hn2. fold b in Hd1, Hd2.
  rewrite <- Z.add_1_r in Hn2, Hd2.
  assert (Hx' : (n # d == inject_Z n / inject_Z (Zpos d))%Q) by apply Qmake_Qdiv.
  assert (Hdpos : (0 < inject_Z (Zpos d))%Q) by reflexivity.
  assert (Qn1 : (2 ^ a <= inject_Z n)%Q).
  { rewrite <- pow2_inject by assumption. now rewrite <- Zle_Qle. }
  assert (Qn2 : (inject_Z n < 2 ^ (a + 1))%Q).
  { rewrite <- pow2_inject by lia. now rewrite <- Zlt_Qlt. }
  assert (Qd1 : (2 ^ b <= inject_Z (Zpos d))%Q).
  { rewrite <- pow2_inject by assumption. now rewrite <- Zle_Qle. }
  assert (Qd2 : (inject_Z (Zpos d) < 2 ^ (b + 1))%Q).
  { rewrite <- pow2_inject by lia. now rewrite <- Zlt_Qlt. }
  pose proof (pow2_pos a) as Pa. pose proof (pow2_pos b) as Pb.
  pose proof (pow2_succ a) as Sa. pose proof (pow2_succ b) as Sb.
  assert (Hk : (2 ^ (a - b) * 2 ^ b == 2 ^ a)%Q).
  { rewrite Qpower_minus by discriminate. field. lra. }
  assert (Hk1 : (2 ^ (a - b - 1) * 2 == 2 ^ (a - b))%Q).
  { replace (a - b)%Z with ((a - b - 1) + 1)%Z at 2 by lia.
    rewrite pow2_succ. ring. }
  assert (Hk2 : (2 ^ (a - b + 1) == 2 * 2 ^ (a - b))%Q) by apply pow2_succ.
  pose proof (pow2_pos (a - b)) as Pk. pose proof (pow2_pos (a - b - 1)) as Pk1.
  assert (Lo : (2 ^ (a - b - 1) <= n # d)%Q).
  { rewrite Hx'. apply Qle_shift_div_l; [assumption|].
    (* 2^(a-b-1) * d <= 2^(a-b-1) * 2^(b+1) = 2^a <= n *)
    apply Qle_trans with (2 ^ (a - b - 1) * 2 ^ (b + 1))%Q.
    - apply Qmult_le_l; [assumption|]. now apply Qlt_le_weak.
    - rewrite Sb.
      setoid_replace (2 ^ (a - b - 1) * (2 * 2 ^ b))%Q
        with (2 ^ (a - b - 1) * 2 * 2 ^ b)%Q by ring.
      rewrite Hk1, Hk. assumption. }
  assert (Hi : (n # d < 2 ^ (a - b + 1))%Q).
  { rewrite Hx'. apply Qlt_shift_div_r; [assumption|].
    apply Qlt_le_trans with (2 ^ (a + 1))%Q; [assumption|].
    rewrite Sa, Hk2, <- Hk.
    setoid_replace (2 * 2 ^ (a - b) * inject_Z (Zpos d))%Q
      with (2 * (2 ^ (a - b) * inject_Z (Zpos d)))%Q by ring.
    apply Qmult_le_l; [reflexivity|].
    apply Qmult_le_l; assumption. }
  destruct (Qle_bool (2 ^ (a - b)) (n # d)) eqn:E.
  - apply Qle_bool_iff in E. split; assumption.
  - assert (Hlt : (n # d < 2 ^ (a - b))%Q).
    { apply Qnot_le_lt. intros H. apply Qle_bool_iff in H. congruence. }
    split; [assumption|].
    replace (a - b - 1 + 1)%Z with (a - b)%Z by lia. assumption.
Qed.

(** On zero and between [2 ^ -40] and 2, [round64] has a relative error of
    at most [u]. *)
Lemma round64_relative (x : Q) :
  (x == 0 \/ (1 # 1099511627776) <= x <= 2)%Q ->
  ((1 - u) * x <= round64 x <= (1 + u) * x)%Q.
Proof.
  intros [H0|[Hlo Hhi]].
  - assert (Hn : Qnum x = 0%Z).
    { unfold Qeq in H0. cbn in H0. lia. }
    unfold round64. rewrite Hn, Qred_correct. unfold u. lra.
  - assert (Hx : (0 < x)%Q) by (eapply Qlt_le_trans; [|exact Hlo]; reflexivity).
    assert (Hn : exists p, Qnum x = Zpos p).
    { unfold Qlt in Hx. cbn in Hx. destruct (Qnum x) as [|p|p]; try lia. now exists p. }
    destruct Hn as [p Hp]. unfold round64. rewrite Hp, Qred_correct.
    destruct (floor_log2_spec Hx) as [He1 He2].
    assert (He : (-41 <= floor_log2 x)%Z).
    { assert (H : (2 ^ (-40) < 2 ^ (floor_log2 x + 1))%Q).
      { eapply Qle_lt_trans; [|exact He2].
        eapply Qle_trans; [|exact Hlo]. apply Qle_refl. }
      apply Qpower_lt_compat_l_inv in H; [lia|reflexivity]. }
    unfold round_pos, ulp. rewrite Z.max_l by lia.
    set (e := floor_log2 x) in *.
    set (q := (2 ^ (e - 52))%Q).
    assert (Hq : (0 < q)%Q) by apply pow2_pos.
    assert (Hq2 : (q == 2 ^ e * 2 * u)%Q).
    { unfold q. rewrite Qpower_minus by discriminate.
      unfold u. change (2 ^ 52)%Q with (4503599627370496 # 1)%Q.
      field. }
    pose proof (nearest_even_near (x / q)) as [Hn1 Hn2].
    set (n := inject_Z (nearest_even (x / q))) in *.
    assert (Hm : (x / q * q == x)%Q) by (field; lra).
    assert (H1 : ((x / q - (1 # 2)) * q <= n * q)%Q)
      by (apply Qmult_le_compat_r; lra).
    assert (H2 : (n * q <= (x / q + (1 # 2)) * q)%Q)
      by (apply Qmult_le_compat_r; lra).
    assert (H3 : ((x / q - (1 # 2)) * q == x - 2 ^ e * u)%Q).
    { setoid_replace ((x / q - (1 # 2)) * q)%Q with (x / q * q - (1 # 2) * q)%Q by ring.
      rewrite Hm, Hq2. ring. }
    assert (H4 : ((x / q + (1 # 2)) * q == x + 2 ^ e * u)%Q).
    { setoid_replace ((x / q + (1 # 2)) * q)%Q with (x / q * q + (1 # 2) * q)%Q by ring.
      rewrite Hm, Hq2. ring. }
    rewrite H3 in H1. rewrite H4 in H2.
    assert (Hu : (0 < u)%Q) by reflexivity.
    assert (H5 : (2 ^ e * u <= x * u)%Q) by (apply Qmult_le_compat_r; lra).
    fold n. lra.
Qed.

(** ** The forward-algorithm example *)

Import Classification.

Section FloatTheory.

Variable rnd : Q -> Q.
Hypothesis rnd_rounds : rounds rnd.

Local Abbreviation u := Binary64.u.

(** [y] is [x] up to the factors [l] and [h]. *)
Local Abbreviation near l h x y := (l * x <= y /\ y <= h * x)%Q.

Lemma rnd_zero (y : Q) : (y == 0)%Q -> (rnd y == 0)%Q.
Proof.
  intros H. destruct (rnd_rounds (or_introl H)) as [H1 H2].
  unfold Binary64.u in *. lra.
Qed.

Lemma rnd_near (l h beta cap x y : Q) :
  (0 < l)%Q -> (0 <= h)%Q ->
  ((1 # 1099511627776) <= l * beta)%Q -> (h * cap <= 2)%Q ->
  (x == 0 \/ beta <= x <= cap)%Q ->
  near l h x y ->
  near ((1 - u) * l) ((1 + u) * h) x (rnd y).
Proof.
  intros Hl Hh Hlo Hhi [H0|[Hb Hc]] [H1 H2].
  - assert (Hy : (y == 0)%Q).
    { rewrite H0, Qmult_0_r in H1, H2. lra. }
    pose proof (rnd_zero Hy) as Hr. rewrite H0, !Qmult_0_r. lra.
  - assert (Hlx : (l * beta <= l * x)%Q) by (apply Qmult_le_l; assumption).
    assert (Hhx : (h * x <= h * cap)%Q).
    { rewrite (Qmult_comm h x), (Qmult_comm h cap).
      apply Qmult_le_compat_r; assumption. }
    assert (Hy : (y == 0 \/ (1 # 1099511627776) <= y <= 2)%Q) by (right; lra).
    destruct (rnd_rounds Hy) as [H3 H4]. unfold Binary64.u in *.
    split; lra.
Qed.

Lemma near_mul (l1 h1 l2 h2 x1 y1 x2 y2 : Q) :
  (0 <= l1)%Q -> (0 <= l2)%Q -> (0 <= x1)%Q -> (0 <= x2)%Q ->
  near l1 h1 x1 y1 -> near l2 h2 x2 y2 ->
  near (l1 * l2) (h1 * h2) (x1 * x2) (y1 * y2).
Proof.
  intros Hl1 Hl2 Hx1 Hx2 [A1 B1] [A2 B2].
  assert (P1 : (0 <= l1 * x1)%Q) by now apply Qmult_le_0_compat.
  assert (P2 : (0 <= l2 * x2)%Q) by now apply Qmult_le_0_compat.
  split.
  - setoid_replace (l1 * l2 * (x1 * x2))%Q with ((l1 * x1) * (l2 * x2))%Q by ring.
    apply Qmult_le_compat_nonneg; split; assumption.
  - setoid_replace (h1 * h2 * (x1 * x2))%Q with ((h1 * x1) * (h2 * x2))%Q by ring.
    apply Qmult_le_compat_nonneg; split; lra.
Qed.

Lemma near_weaken (l h l' h' x y : Q) :
  (0 <= x)%Q -> (l' <= l)%Q -> (h <= h')%Q ->
  near l h x y -> near l' h' x y.
Proof.
  intros Hx Hl Hh [A B].
  assert (L : (l' * x <= l * x)%Q) by now apply Qmult_le_compat_r.
  assert (H : (h * x <= h' * x)%Q) by now apply Qmult_le_compat_r.
  split; lra.
Qed.

(** The float product and the float sum of two computed numbers. *)
Lemma fmul_near (l1 h1 l2 h2 beta cap x1 y1 x2 y2 : Q) :
  (0 < l1)%Q -> (0 < l2)%Q -> (0 <= h1)%Q -> (0 <= h2)%Q ->
  (0 <= x1)%Q -> (0 <= x2)%Q ->
  ((1 # 1099511627776) <= l1 * l2 * beta)%Q -> (h1 * h2 * cap <= 2)%Q ->
  (x1 * x2 == 0 \/ beta <= x1 * x2 <= cap)%Q ->
  near l1 h1 x1 y1 -> near l2 h2 x2 y2 ->
  near ((1 - u) * (l1 * l2)) ((1 + u) * (h1 * h2)) (x1 * x2) (fmul rnd y1 y2).
Proof.
  intros. unfold fmul.
  apply (@rnd_near (l1 * l2) (h1 * h2) beta cap (x1 * x2) (y1 * y2))%Q;
    try assumption.
  - now apply Qmult_lt_0_compat.
  - now apply Qmult_le_0_compat.
  - apply near_mul; try assumption; now apply Qlt_le_weak.
Qed.

Lemma fadd_near (l h beta cap x1 y1 x2 y2 : Q) :
  (0 < l)%Q -> (0 <= h)%Q ->
  ((1 # 1099511627776) <= l * beta)%Q -> (h * cap <= 2)%Q ->
  (x1 + x2 == 0 \/ beta <= x1 + x2 <= cap)%Q ->
  near l h x1 y1 -> near l h x2 y2 ->
  near ((1 - u) * l) ((1 + u) * h) (x1 + x2) (fadd rnd y1 y2).
Proof.
  intros Hl Hh Hlo Hhi Hr [A1 B1] [A2 B2]. unfold fadd.
  apply (@rnd_near l h beta cap (x1 + x2) (y1 + y2))%Q; try assumption.
  split; lra.
Qed.


(** A literal of the script, and a component of a vector. *)
Local Abbreviation lit R := (R == 0 \/ (1 # 128) <= R <= 1)%Q.
Local Abbreviation comp v := (v == 0 \/ (1 # 32768) <= v)%Q.

Lemma literal_near (R : Q) :
  lit R -> near (1 - u) (1 + u) R (literal rnd R).
Proof.
  intros HR. unfold literal.
  assert (H : near 1 1 R R) by (split; lra).
  pose proof (@rnd_near 1 1 (1 # 128) 1 R R) as N.
  unfold Binary64.u in *.
  destruct N as [N1 N2]; [lra..|]. split; lra.
Qed.

(** One term of a dot product. *)
Lemma term_near (R v : Q) :
  lit R -> comp v -> (v <= 3 # 2)%Q ->
  near (1 - 2 * u) (1 + (9 # 4) * u) (R * v) (fmul rnd (literal rnd R) v) /\
  (R * v == 0 \/ (1 # 4194304) <= R * v)%Q /\ (0 <= R * v <= v)%Q.
Proof.
  intros HR Hv Hcap.
  pose proof (literal_near HR) as NR.
  assert (R0 : (0 <= R <= 1)%Q) by (destruct HR; lra).
  assert (V0 : (0 <= v)%Q) by (destruct Hv; lra).
  assert (Hle : (0 <= R * v <= v)%Q).
  { split; [apply Qmult_le_0_compat; lra|].
    setoid_replace v with (1 * v)%Q at 2 by ring.
    apply Qmult_le_compat_r; lra. }
  assert (Hzb : (R * v == 0 \/ (1 # 4194304) <= R * v)%Q).
  { destruct HR as [HR|[HR _]]; [left; rewrite HR; ring|].
    destruct Hv as [Hv|Hv]; [left; rewrite Hv; ring|]. right.
    setoid_replace (1 # 4194304)%Q with ((1 # 128) * (1 # 32768))%Q by reflexivity.
    apply Qmult_le_compat_nonneg; split; lra. }
  split; [|split; assumption].
  assert (Nv : near 1 1 v v) by (split; lra).
  pose proof (@fmul_near (1 - u) (1 + u) 1 1 (1 # 4194304) (3 # 2) R
                (literal rnd R) v v) as N.
  unfold Binary64.u in *.
  destruct N as [N1 N2]; [lra..|].
  split; lra.
Qed.

(** A dot product of three terms, accumulated from left to right. *)
Lemma dot3_near (R0 R1 R2 a b c : Q) :
  lit R0 -> lit R1 -> lit R2 -> comp a -> comp b -> comp c ->
  (a + b + c <= 3 # 2)%Q ->
  near (1 - 4 * u) (1 + 5 * u) (R0 * a + R1 * b + R2 * c)
    (accumulate rnd
       (products rnd [literal rnd R0; literal rnd R1; literal rnd R2]
          [a; b; c])).
Proof.
  intros H0 H1 H2 Ha Hb Hc Hcap.
  assert (A0 : (0 <= a)%Q) by (destruct Ha; lra).
  assert (B0 : (0 <= b)%Q) by (destruct Hb; lra).
  assert (C0 : (0 <= c)%Q) by (destruct Hc; lra).
  destruct (@term_near R0 a H0 Ha) as (N0 & Z0 & L0); [lra|].
  destruct (@term_near R1 b H1 Hb) as (N1 & Z1 & L1); [lra|].
  destruct (@term_near R2 c H2 Hc) as (N2 & Z2 & L2); [lra|].
  cbn [accumulate products fold_left].
  set (t0 := fmul rnd (literal rnd R0) a) in *.
  set (t1 := fmul rnd (literal rnd R1) b) in *.
  set (t2 := fmul rnd (literal rnd R2) c) in *.
  pose proof (@fadd_near (1 - 2 * u) (1 + (9 # 4) * u) (1 # 4194304) (3 # 2)
                (R0 * a) t0 (R1 * b) t1) as S1.
  unfold Binary64.u in *.
  destruct S1 as [S1l S1h]; [lra..|].
  set (s1 := fadd rnd t0 t1) in *.
  assert (N2' : near (1 - 3 * (1 # 9007199254740992))
                  (1 + (7 # 2) * (1 # 9007199254740992)) (R2 * c) t2)
    by (split; lra).
  assert (S1' : near (1 - 3 * (1 # 9007199254740992))
                  (1 + (7 # 2) * (1 # 9007199254740992))
                  (R0 * a + R1 * b) s1)
    by (split; lra).
  pose proof (@fadd_near (1 - 3 * (1 # 9007199254740992))
                (1 + (7 # 2) * (1 # 9007199254740992)) (1 # 4194304) (3 # 2)
                (R0 * a + R1 * b) s1 (R2 * c) t2) as S2.
  unfold Binary64.u in *.
  destruct S2 as [S2l S2h]; [lra..|].
  split; lra.
Qed.


(** The division of three positive floats by their float sum. *)
Lemma normalise_near (p0 p1 p2 : Q) :
  ((1 # 1048576) <= p0)%Q -> ((1 # 1048576) <= p1)%Q ->
  ((1 # 1048576) <= p2)%Q -> (p0 + p1 + p2 <= 3 # 2)%Q ->
  let s := np_sum rnd [p0; p1; p2] in
  let q0 := fdiv rnd p0 s in
  let q1 := fdiv rnd p1 s in
  let q2 := fdiv rnd p2 s in
  (0 < s)%Q /\
  ((1 - 2 * u) * (p0 + p1 + p2) <= s <= (1 + (9 # 4) * u) * (p0 + p1 + p2))%Q /\
  ((1 - u) * (p0 / s) <= q0)%Q /\
  ((1 - u) * (p1 / s) <= q1)%Q /\
  ((1 - u) * (p2 / s) <= q2)%Q /\
  (1 - 4 * u <= q0 + q1 + q2 <= 1 + 4 * u)%Q.
Proof.
  intros H0 H1 H2 Hcap. cbn [np_sum accumulate fold_left]. unfold fadd, fdiv.
  assert (R1 : (p0 + p1 == 0 \/ (1 # 1099511627776) <= p0 + p1 <= 2)%Q)
    by (right; lra).
  destruct (rnd_rounds R1) as [A1 B1].
  set (s1 := rnd (p0 + p1)) in *.
  unfold Binary64.u in *.
  assert (R2 : (s1 + p2 == 0 \/ (1 # 1099511627776) <= s1 + p2 <= 2)%Q)
    by (right; lra).
  destruct (rnd_rounds R2) as [A2 B2].
  set (s := rnd (s1 + p2)) in *.
  unfold Binary64.u in *.
  assert (Hs : (0 < s)%Q) by lra.
  assert (Hs1 : ((1 - 2 * (1 # 9007199254740992)) * (p0 + p1 + p2) <= s)%Q) by lra.
  assert (Hs2 : (s <= (1 + (9 # 4) * (1 # 9007199254740992)) * (p0 + p1 + p2))%Q)
    by lra.
  assert (D : forall p, ((1 # 1048576) <= p)%Q -> (p <= p0 + p1 + p2)%Q ->
            ((1 - (1 # 9007199254740992)) * (p / s) <= rnd (p / s)
             <= (1 + (1 # 9007199254740992)) * (p / s))%Q).
  { intros p Hp Hle.
    assert (L : ((1 # 1099511627776) <= p / s)%Q)
      by (apply Qle_shift_div_l; [assumption|lra]).
    assert (U : (p / s <= 2)%Q)
      by (apply Qle_shift_div_r; [assumption|lra]).
    apply rnd_rounds. right. split; assumption. }
  destruct (D p0 H0) as [L0 U0]; [lra|].
  destruct (D p1 H1) as [L1 U1]; [lra|].
  destruct (D p2 H2) as [L2 U2]; [lra|].
  assert (E : (p0 / s + p1 / s + p2 / s == (p0 + p1 + p2) / s)%Q)
    by (field; lra).
  assert (EU : ((p0 + p1 + p2) / s <= 1 + (5 # 2) * (1 # 9007199254740992))%Q)
    by (apply Qle_shift_div_r; [assumption|lra]).
  assert (EL : (1 - 2 * (1 # 9007199254740992) <= (p0 + p1 + p2) / s)%Q)
    by (apply Qle_shift_div_l; [assumption|lra]).
  repeat split; lra.
Qed.


(** The dot product of the row [R] of literals with [v]. *)
Local Abbreviation dot R0 R1 R2 v :=
  (accumulate rnd
     (products rnd [literal rnd R0; literal rnd R1; literal rnd R2] v)).

Lemma transit_eq (a b c : Q) :
  transit rnd [a; b; c] =
  Some [dot 0.8 0.1 0 [a; b; c]; dot 0.1 0.8 0.1 [a; b; c];
        dot 0.1 0.1 0.9 [a; b; c]]%Q.
Proof. reflexivity. Qed.

Lemma transit_length (v : StateVector) :
  length v <> 3 -> transit rnd v = None.
Proof.
  intros H. unfold transit, matvec. cbn.
  destruct v as [|? [|? [|? [|? ?]]]]; try reflexivity. contradiction.
Qed.

Lemma emission_eq (x y z : Q) :
  matvec rnd (E64 rnd) [x; y; z] =
  Some [dot 0.89 0.1 0.01 [x; y; z]; dot 0.3 0.3 0.4 [x; y; z];
        dot 0.1 0.3 0.6 [x; y; z]]%Q.
Proof. reflexivity. Qed.

Lemma prenormalise_eq (a b c x y z : Q) :
  prenormalise rnd [a; b; c] [x; y; z] =
  Some [fmul rnd (dot 0.8 0.1 0 [a; b; c]) (dot 0.89 0.1 0.01 [x; y; z]);
        fmul rnd (dot 0.1 0.8 0.1 [a; b; c]) (dot 0.3 0.3 0.4 [x; y; z]);
        fmul rnd (dot 0.1 0.1 0.9 [a; b; c]) (dot 0.1 0.3 0.6 [x; y; z])]%Q.
Proof. reflexivity. Qed.

Lemma transit_near (a b c : Q) :
  comp a -> comp b -> comp c -> (a + b + c <= 3 # 2)%Q ->
  near (1 - 4 * u) (1 + 5 * u) (0.8 * a + 0.1 * b + 0 * c)
    (dot 0.8 0.1 0 [a; b; c]) /\
  near (1 - 4 * u) (1 + 5 * u) (0.1 * a + 0.8 * b + 0.1 * c)
    (dot 0.1 0.8 0.1 [a; b; c]) /\
  near (1 - 4 * u) (1 + 5 * u) (0.1 * a + 0.1 * b + 0.9 * c)
    (dot 0.1 0.1 0.9 [a; b; c]).
Proof.
  intros Ha Hb Hc Hcap.
  repeat split; apply dot3_near; try assumption; try (right; lra); left; lra.
Qed.

Lemma emission_near (x y z : Q) :
  one_hot [x; y; z] ->
  near (1 - 4 * u) (1 + 5 * u) (0.89 * x + 0.1 * y + 0.01 * z)
    (dot 0.89 0.1 0.01 [x; y; z]) /\
  near (1 - 4 * u) (1 + 5 * u) (0.3 * x + 0.3 * y + 0.4 * z)
    (dot 0.3 0.3 0.4 [x; y; z]) /\
  near (1 - 4 * u) (1 + 5 * u) (0.1 * x + 0.3 * y + 0.6 * z)
    (dot 0.1 0.3 0.6 [x; y; z]).
Proof.
  intros [H | [H | H] ]; injection H as -> -> ->;
    repeat split; apply dot3_near; try (right; lra); try (left; lra); lra.
Qed.


(** One iteration keeps the invariant, and divides by a positive sum. *)
Lemma normalise_invariant (pr o : StateVector) :
  invariant pr -> one_hot o ->
  exists p q,
    prenormalise rnd pr o = Some p /\ (0 < np_sum rnd p)%Q /\
    normalise rnd pr o = Some q /\ invariant q.
Proof.
  intros (a & b & c & -> & Ha & Hb & Hc & Hs) Ho.
  unfold Binary64.u in Hs.
  destruct (@transit_near a b c) as (T0 & T1 & T2); try lra.
  assert (Ho' : exists x y z, o = [x; y; z] /\ one_hot [x; y; z]).
  { destruct Ho as [-> | [-> | ->] ]; do 3 eexists; (split; [reflexivity|]);
      unfold one_hot; auto. }
  destruct Ho' as (x & y & z & -> & Ho').
  destruct (emission_near Ho') as (E0 & E1 & E2). clear Ho'.
  unfold normalise. rewrite prenormalise_eq.
  set (TX0 := dot 0.8 0.1 0 [a; b; c]) in *.
  set (TX1 := dot 0.1 0.8 0.1 [a; b; c]) in *.
  set (TX2 := dot 0.1 0.1 0.9 [a; b; c]) in *.
  set (EY0 := dot 0.89 0.1 0.01 [x; y; z]) in *.
  set (EY1 := dot 0.3 0.3 0.4 [x; y; z]) in *.
  set (EY2 := dot 0.1 0.3 0.6 [x; y; z]) in *.
  pose proof (@fmul_near (1 - 4 * u) (1 + 5 * u) (1 - 4 * u) (1 + 5 * u)
                (1 # 65536) 1 (0.8 * a + 0.1 * b + 0 * c) TX0
                (0.89 * x + 0.1 * y + 0.01 * z) EY0) as P0.
  pose proof (@fmul_near (1 - 4 * u) (1 + 5 * u) (1 - 4 * u) (1 + 5 * u)
                (1 # 65536) 1 (0.1 * a + 0.8 * b + 0.1 * c) TX1
                (0.3 * x + 0.3 * y + 0.4 * z) EY1) as P1.
  pose proof (@fmul_near (1 - 4 * u) (1 + 5 * u) (1 - 4 * u) (1 + 5 * u)
                (1 # 65536) 1 (0.1 * a + 0.1 * b + 0.9 * c) TX2
                (0.1 * x + 0.3 * y + 0.6 * z) EY2) as P2.
  unfold Binary64.u in *.
  set (p0 := fmul rnd TX0 EY0) in *.
  set (p1 := fmul rnd TX1 EY1) in *.
  set (p2 := fmul rnd TX2 EY2) in *.
  pose proof (@normalise_near p0 p1 p2) as N. cbv zeta in N.
  set (s := np_sum rnd [p0; p1; p2]) in *.
  cbn [map].
  set (q0 := fdiv rnd p0 s) in *.
  set (q1 := fdiv rnd p1 s) in *.
  set (q2 := fdiv rnd p2 s) in *.
  unfold Binary64.u in *.
  exists [p0; p1; p2], [q0; q1; q2].
  destruct Ho as [H | [H | H] ]; injection H as -> -> ->.
  all: destruct P0 as [P0l P0h]; [lra..|].
  all: destruct P1 as [P1l P1h]; [lra..|].
  all: destruct P2 as [P2l P2h]; [lra..|].
  all: destruct N as (Hs0 & [Hsl Hsh] & Q0 & Q1 & Q2 & Hq); [lra..|].
  all: split; [reflexivity|]; split; [exact Hs0|].
  all: split;
    [destruct (Qeq_bool s 0) eqn:Ez;
     [apply Qeq_bool_eq in Ez; lra|reflexivity]|].
  all: exists q0, q1, q2; split; [reflexivity|].
  all: assert (D0 : ((1 # 32768) * (1 + 2 * (1 # 9007199254740992)) <= p0 / s)%Q)
         by (apply Qle_shift_div_l; [assumption|lra]).
  all: assert (D1 : ((1 # 40) * (1 + 2 * (1 # 9007199254740992)) <= p1 / s)%Q)
         by (apply Qle_shift_div_l; [assumption|lra]).
  all: assert (D2 : ((1 # 100) * (1 + 2 * (1 # 9007199254740992)) <= p2 / s)%Q)
         by (apply Qle_shift_div_l; [assumption|lra]).
  all: unfold Binary64.u; repeat split; lra.
Qed.


Lemma prior_invariant : invariant (prior rnd).
Proof.
  unfold prior, fdiv.
  assert (E : (1 / 3 == 1 # 3)%Q) by reflexivity.
  assert (R : (1 / 3 == 0 \/ (1 # 1099511627776) <= 1 / 3 <= 2)%Q)
    by (right; rewrite E; lra).
  destruct (rnd_rounds R) as [L U].
  set (t := (1 / 3)%Q) in *.
  exists (rnd t), (rnd t), (rnd t).
  unfold Binary64.u in *. repeat split; lra.
Qed.

Lemma invariant_undecided (v : StateVector) : invariant v -> undecided v.
Proof.
  intros (a & b & c & -> & Ha & Hb & Hc & Hs). exists a, b, c.
  unfold Binary64.u in *. repeat split; lra.
Qed.

Lemma invariant_nearly_categorical (v : StateVector) :
  invariant v ->
  nearly_categorical v /\
  (1 - 6 * u <= np_sum rnd v <= 1 + 7 * u)%Q.
Proof.
  intros (a & b & c & -> & Ha & Hb & Hc & Hs).
  unfold Binary64.u in *.
  destruct (@normalise_near a b c) as (_ & [L U] & _); try lra.
  unfold Binary64.u in *. split; [split|split].
  - repeat constructor; lra.
  - unfold total. cbn [fold_right]. unfold Binary64.u. lra.
  - lra.
  - lra.
Qed.

(** The divisor of an iteration is positive. *)
Local Abbreviation divides_by_positive :=
  (fun p o => exists pn, prenormalise rnd p o = Some pn /\
                         (0 < np_sum rnd pn)%Q).

Lemma tracking_loop_invariant (obs : list StateVector) : forall pr tr,
  invariant pr -> Forall one_hot obs ->
  exists states,
    tracking_loop rnd obs pr tr = Some (tr ++ states) /\
    length states = length obs /\
    Forall invariant states /\
    Forall2 divides_by_positive (removelast (pr :: states)) obs.
Proof.
  induction obs as [|o rest IH]; intros pr tr Hp Ho.
  - exists []. rewrite app_nil_r. repeat split; constructor.
  - inversion Ho as [|? ? Ho1 Ho2]; subst.
    destruct (normalise_invariant Hp Ho1) as (p & q & Hpre & Hpos & Hn & Hq).
    destruct (IH q (tr ++ [q]) Hq Ho2) as (states & Hrun & Hlen & Hinv & Hdiv).
    exists (q :: states). cbn [tracking_loop]. rewrite Hn, Hrun, <- app_assoc.
    repeat split.
    + cbn. now rewrite Hlen.
    + now constructor.
    + change (removelast (pr :: q :: states))
        with (pr :: removelast (q :: states)).
      constructor; [|assumption]. now exists p.
Qed.

Lemma observations_one_hot draws : Forall one_hot (observations draws).
Proof.
  unfold observations. apply Forall_forall. intros o Hin.
  apply in_map_iff in Hin. destruct Hin as (i & <- & _).
  unfold one_hot, observe, _sample. destruct (draws i); auto.
Qed.

Lemma track_invariant draws :
  exists states,
    track rnd draws = Some states /\
    length states = nsteps /\
    Forall invariant states /\
    Forall2 divides_by_positive (removelast (prior rnd :: states))
      (observations draws).
Proof.
  destruct (@tracking_loop_invariant (observations draws) (prior rnd) []
              prior_invariant (observations_one_hot draws))
    as (states & Hrun & Hlen & Hinv & Hdiv).
  exists states. split; [exact Hrun|]. split; [|split; assumption].
  rewrite Hlen. unfold observations. now rewrite length_map, length_seq.
Qed.


(** C10, as the code has it.  The script computes in binary64, and the
    sum of a state is 1 only up to rounding.  Whatever the hundred draws,
    the loop appends a hundred states; each has non-negative components,
    the sum of the three numbers is within [4 u] of 1 and the sum that
    [np.sum] computes is between [1 - 6 u] and [1 + 7 u]; and at every
    iteration the sum that the product is divided by is positive. *)
Theorem track_states_are_categorical (draws : nat -> Size) :
  exists states,
    track rnd draws = Some states /\
    length states = nsteps /\
    Forall (fun v => nearly_categorical v /\
                     (1 - 6 * u <= np_sum rnd v <= 1 + 7 * u)%Q) states /\
    Forall2 (fun p o => exists pn, prenormalise rnd p o = Some pn /\
                                   (0 < np_sum rnd pn)%Q)
      (removelast (prior rnd :: states)) (observations draws).
Proof.
  destruct (track_invariant draws) as (states & Hrun & Hlen & Hinv & Hdiv).
  exists states. split; [exact Hrun|]. split; [exact Hlen|]. split; [|exact Hdiv].
  eapply Forall_impl; [|exact Hinv]. apply invariant_nearly_categorical.
Qed.

(** X8.  In binary64, [transit] keeps the components of a vector
    non-negative and keeps their total up to rounding, within the factors
    [1 - 4 u] and [1 + 5 u]: the rows of [F] sum to 1 and [F] has no
    negative entry.  The vector has three components, each zero or at
    least [2 ^ -15], with a total of at most [3/2]; on a vector of another
    length [F.T @ v] raises [ValueError]. *)
Theorem transit_keeps_total (a b c : Q) :
  (a == 0 \/ (1 # 32768) <= a)%Q ->
  (b == 0 \/ (1 # 32768) <= b)%Q ->
  (c == 0 \/ (1 # 32768) <= c)%Q ->
  (a + b + c <= 3 # 2)%Q ->
  (forall v, length v <> 3 -> transit rnd v = None) /\
  exists TX,
    transit rnd [a; b; c] = Some TX /\
    Forall (fun x => 0 <= x)%Q TX /\
    ((1 - 4 * u) * (a + b + c) <= total TX <= (1 + 5 * u) * (a + b + c))%Q.
Proof.
  intros Ha Hb Hc Hcap. split; [apply transit_length|].
  destruct (transit_near Ha Hb Hc Hcap) as ([L0 U0] & [L1 U1] & [L2 U2]).
  rewrite transit_eq. eexists. split; [reflexivity|].
  assert (A0 : (0 <= a)%Q) by (destruct Ha; lra).
  assert (B0 : (0 <= b)%Q) by (destruct Hb; lra).
  assert (C0 : (0 <= c)%Q) by (destruct Hc; lra).
  unfold Binary64.u in *. split.
  - repeat constructor; lra.
  - unfold total. cbn [fold_right]. split; lra.
Qed.

(** X9.  Whatever the draws, no state of the track rules a category out
    or settles on one: in binary64 the first component stays at or above
    [2 ^ -15], the second at or above [1/40], the third at or above
    [1/100], and each stays below 1. *)
Theorem track_states_are_undecided (draws : nat -> Size) :
  exists states,
    track rnd draws = Some states /\ Forall undecided states.
Proof.
  destruct (track_invariant draws) as (states & Hrun & _ & Hinv & _).
  exists states. split; [exact Hrun|].
  eapply Forall_impl; [|exact Hinv]. apply invariant_undecided.
Qed.

End FloatTheory.

(** ** The script's arithmetic: [round64] *)

Lemma round64_rounds : rounds round64.
Proof. exact round64_relative. Qed.

(** The floats of [0.1] and [1/3]; a tie goes to the even neighbour; below
    [2 ^ -1022] the spacing is [2 ^ -1074]; the sign is kept. *)
Lemma round64_examples :
  round64 0.1 = (3602879701896397 # 36028797018963968)%Q /\
  round64 (1 / 3) = (6004799503160661 # 18014398509481984)%Q /\
  round64 (1 + (1 # 9007199254740992)) = 1%Q /\
  round64 (1 + (3 # 9007199254740992))
    = (2251799813685249 # 2251799813685248)%Q /\
  round64 (2 ^ (-1074) * (3 # 2)) = Qred (2 ^ (-1074) * 2)%Q /\
  round64 (- 0.1) = (- 3602879701896397 # 36028797018963968)%Q.
Proof. repeat split; vm_compute; reflexivity. Qed.

(** The first four states of the track when every observation is small.
    As Python prints them with [float.hex]:
    [0x1.52a7d91a6ca85p-1, 0x1.fb596b99af3f2p-3, 0x1.740e5ff93c3f7p-4]
    [0x1.aa2b1ce15f469p-1, 0x1.1b9f03f406524p-3, 0x1.dda44433e49b2p-6]
    [0x1.c9f0fb3eb5413p-1, 0x1.65c9c85b29352p-4, 0x1.2ab976bcb305ep-6]
    [0x1.d4883fb0c1e52p-1, 0x1.191ca43c0a393p-4, 0x1.0a8578f79a76ap-6] *)
Lemma track_all_small_begins :
  option_map (firstn 4) (track round64 (fun _ => Small)) =
  Some [
        [5957693313829509 # 9007199254740992;
         4462691620846073 # 18014398509481984;
         6545281043907575 # 72057594037927936];
        [7497233944933481 # 9007199254740992;
         1247379027138889 # 9007199254740992;
         4201380522697945 # 144115188075855872];
        [8056189139768339 # 9007199254740992;
         3147138407680425 # 36028797018963968;
         2627608208840751 # 144115188075855872];
        [4121253007200041 # 4503599627370496;
         4945372510200723 # 72057594037927936;
         2344346825053109 # 144115188075855872]]%Q.
Proof. vm_compute. reflexivity. Qed.

(** C10 as the spec words it does not hold in binary64: when every
    observation is small, [np.sum] of the fourth state is
    [1 - 2 ^ -53], and the three numbers of the first state do not add up
    to 1 either. *)
Lemma sums_are_not_exactly_one :
  ~ all_categorical round64 /\
  ~ (forall draws states,
       track round64 draws = Some states ->
       Forall (fun v => total v == 1)%Q states).
Proof.
  pose proof track_all_small_begins as B.
  destruct (track round64 (fun _ => Small)) as [states|] eqn:E;
    [|discriminate B].
  injection B as B.
  match type of B with _ = ?l => change (firstn 4 states = l) in B end.
  rewrite <- (firstn_skipn 4 states), B in E.
  split; intros H; specialize (H _ _ E).
  - do 3 apply Forall_inv_tail in H. apply Forall_inv in H.
    destruct H as [_ H]. vm_compute in H. discriminate H.
  - apply Forall_inv in H. vm_compute in H. discriminate H.
Qed.

Lemma track_states_are_categorical_witness :
  exists states,
    track round64 (fun _ => Large) = Some states /\
    length states = nsteps /\
    Forall (fun v => nearly_categorical v /\
                     (1 - 6 * Binary64.u <= np_sum round64 v
                      <= 1 + 7 * Binary64.u)%Q) states /\
    Forall2 (fun p o => exists pn, prenormalise round64 p o = Some pn /\
                                   (0 < np_sum round64 pn)%Q)
      (removelast (prior round64 :: states))
      (observations (fun _ => Large)).
Proof.
  exact (track_states_are_categorical round64_rounds (fun _ => Large)).
Defined.

Lemma transit_keeps_total_witness :
  (forall v, length v <> 3 -> transit round64 v = None) /\
  exists TX,
    transit round64 [1 # 4; 1 # 2; 1 # 4]%Q = Some TX /\
    Forall (fun x => 0 <= x)%Q TX /\
    ((1 - 4 * Binary64.u) * ((1 # 4) + (1 # 2) + (1 # 4)) <= total TX
     <= (1 + 5 * Binary64.u) * ((1 # 4) + (1 # 2) + (1 # 4)))%Q.
Proof.
  apply (@transit_keeps_total round64 round64_rounds (1 # 4) (1 # 2) (1 # 4));
    try (right; lra); lra.
Defined.

Lemma track_states_are_undecided_witness :
  exists states,
    track round64 (fun _ => Medium) = Some states /\
    Forall undecided states.
Proof.
  exact (track_states_are_undecided round64_rounds (fun _ => Medium)).
Defined.

(** ** The forward-algorithm example: the colours of the plot *)

Import ClassificationPlot.

(** X11.  The colours of the observation bars: one per observation, light
    blue for a small, blue for a medium and dark blue for a large observed
    size; no index is out of range. *)
Theorem d_colours_of_observations (draws : nat -> Size) :
  d_colours (observations draws)
  = Some (map (fun i => colour_of_size (draws i)) (seq 0 nsteps)).
Proof.
  unfold observations. generalize (seq 0 nsteps) as l.
  induction l as [|i l IH]; [reflexivity|].
  cbn [map d_colours]. rewrite IH.
  unfold observe, _sample. now destruct (draws i).
Qed.

(** ** The test of the two orbital propagators *)

Import OrbitalTransitionTest.

Lemma deltat_is_an_hour : deltat = timedelta_of 1 0.
Proof. reflexivity. Qed.

Section OrbitalTransitionTestTheory.

Variable OrbitalState : Type.
Variable vector : Type.
Variable cartesian_state_vector : OrbitalState -> vector.
Variable allclose : vector -> vector -> bool.
Variable propagator_c_transition : OrbitalState -> timedelta -> OrbitalState.
Variable propagator_sm_transition : OrbitalState -> timedelta -> OrbitalState.

Local Abbreviation loop :=
  (while_loop cartesian_state_vector allclose propagator_c_transition
     propagator_sm_transition).
Local Abbreviation close :=
  (close_after cartesian_state_vector allclose propagator_c_transition
     propagator_sm_transition).

Lemma while_loop_from (n : nat) : forall (j : nat) state1 state2 fuel,
  j + n = 200 -> n < fuel ->
  exists v,
    loop fuel (timedelta_of 0 3) (time1 + Z.of_nat j * timedelta_of 0 3)%Z
      state1 state2 = Some v /\
    (v = Passed <->
     forall k, 1 <= k <= n -> close (timedelta_of 0 3) state1 state2 k = true).
Proof.
  assert (Hend : (datetime_of 2011 11 12 13 45 31 + timedelta_of 10 0
                  = time1 + 200 * timedelta_of 0 3)%Z) by reflexivity.
  assert (Hdt : (0 < timedelta_of 0 3)%Z) by reflexivity.
  induction n as [|n IH]; intros j s1 s2 fuel Hj Hfuel;
    (destruct fuel as [|fuel]; [lia|]); cbn [while_loop]; rewrite Hend.
  - replace j with 200 by lia.
    rewrite Z.ltb_irrefl. exists Passed. split; [reflexivity|].
    split; [intros _ k Hk; lia|reflexivity].
  - assert (Hlt : (time1 + Z.of_nat j * timedelta_of 0 3
                   <? time1 + 200 * timedelta_of 0 3)%Z = true).
    { apply Z.ltb_lt. unfold datetime, timedelta in *. nia. }
    rewrite Hlt.
    destruct (allclose _ _) eqn:Hclose.
    + destruct (IH (S j) (propagator_c_transition s1 (timedelta_of 0 3))
                  (propagator_sm_transition s2 (timedelta_of 0 3)) fuel)
        as (v & Hrun & Hv); [lia|lia|].
      exists v. split.
      * rewrite <- Hrun. f_equal. unfold datetime, timedelta in *. lia.
      * rewrite Hv. split; intros H k Hk.
        -- destruct k as [|k]; [lia|]. destruct k as [|k]; [exact Hclose|].
           specialize (H (S k)). unfold close_after in *.
           rewrite !Nat.iter_succ_r in H. rewrite !Nat.iter_succ_r.
           apply H. lia.
        -- specialize (H (S k)). unfold close_after in *.
           rewrite !Nat.iter_succ_r in H. apply H. lia.
    + exists AssertionError. split; [reflexivity|].
      split; [discriminate|]. intros H.
      assert (H1 := H 1 ltac:(lia)).
      unfold close_after in H1. cbn [Nat.iter nat_rect] in H1.
      rewrite Hclose in H1. discriminate H1.
Qed.

(** X12.  Whatever the two propagators and the comparison are, the test
    ends after 200 steps of three minutes: it passes exactly when the two
    states are close at the start and after each of the steps 1 to 200, and
    an [assert] fails otherwise. *)
Theorem test_meanm_cart_ransition_verdict (fuel : nat) initial_state :
  200 < fuel ->
  exists v,
    test_meanm_cart_ransition cartesian_state_vector allclose
      propagator_c_transition propagator_sm_transition fuel initial_state
    = Some v /\
    (v = Passed <->
     forall k, k <= 200 ->
       close (timedelta_of 0 3) initial_state initial_state k = true).
Proof.
  intros Hfuel. unfold test_meanm_cart_ransition.
  destruct (allclose _ _) eqn:Hclose.
  - destruct (@while_loop_from 200 0 initial_state initial_state fuel)
      as (v & Hrun & Hv); [lia|lia|].
    exists v. split.
    + rewrite <- Hrun. reflexivity.
    + rewrite Hv. split; intros H k Hk.
      * destruct k as [|k]; [exact Hclose|]. apply H. lia.
      * apply H. lia.
  - exists AssertionError. split; [reflexivity|].
    split; [discriminate|]. intros H.
    assert (H0 := H 0 ltac:(lia)).
    unfold close_after in H0. cbn [Nat.iter nat_rect] in H0.
    rewrite Hclose in H0. discriminate H0.
Qed.

End OrbitalTransitionTestTheory.

(** States that are numbers, a propagator that adds the interval and one
    that adds one more: the states differ after the first step. *)
Lemma test_meanm_cart_ransition_verdict_witness :
  exists v,
    test_meanm_cart_ransition (fun s : Z => s) Z.eqb
      (fun s dt => (s + dt)%Z) (fun s dt => (s + dt + 1)%Z) 201 0%Z = Some v /\
    (v = Passed <->
     forall k, k <= 200 ->
       close_after (fun s : Z => s) Z.eqb
         (fun s dt => (s + dt)%Z) (fun s dt => (s + dt + 1)%Z)
         (timedelta_of 0 3) 0%Z 0%Z k = true).
Proof.
  apply (@test_meanm_cart_ransition_verdict Z Z (fun s : Z => s) Z.eqb
           (fun s dt => (s + dt)%Z) (fun s dt => (s + dt + 1)%Z) 201 0%Z).
  lia.
Defined.
